(** * logr: the Sugar front-end, the custom-level filter and the JSON formatter

    A shallow embedding of the Go sources

    - [Sugar] (package logr): [WithField], [WithFields], [Log], [Logf],
      [Logln] and the per-level wrappers;
    - package format, json.go: [Format], [defaultContextSorter],
      [MarshalJSONObject], [prefixCollision], [encodeField].

    Go maps and slices are reference values, so both live in explicit
    stores; the calls the front-end makes on its dispatcher are the
    commands of a small program type, run against an interface of the
    dispatcher with a trace of the calls made. *)

From Stdlib Require Import ZArith NArith String List.
From stdpp Require Import base gmap strings list fin_maps sorting.
From Equations Require Import Equations.

Local Open Scope N_scope.

(** ** Package logr *)
Module Logr.

(** [type LevelID uint]; the ids that occur are small constants, which Go
    evaluates exactly (an overflowing constant does not compile), so [N]
    without wrap-around. *)
Abbreviation LevelID := N.

(** [type Level struct { ID LevelID; Name string; Stacktrace bool }] *)
Record Level := { ID : LevelID; Name : string; Stacktrace : bool }.

(** [type LevelStatus struct { Stacktrace bool; Enabled bool }]; the
    stack trace flag is [StatusStacktrace] here, [Stacktrace] being the
    field of [Level]. *)
Record LevelStatus := { StatusStacktrace : bool; Enabled : bool }.

(** A [*Logr]: the dispatcher a logger is bound to. *)
Definition LogrRef := positive.

(** A [Fields] value, [map[string]interface{}]: nil, or a reference to a
    hash table in the store. *)
Definition Fields := option positive.

(** [type Sugar struct { logr *Logr; fields Fields }] *)
Record Sugar := { logr : LogrRef; fields : Fields }.

Section FieldStore.
(** The dynamic values, [interface{}]. *)
Context {Value : Type}.

(** The store of hash tables. *)
Abbreviation Heap := (gmap positive (gmap string Value)).

(** The table a [Fields] value denotes; nil reads as the empty map. *)
Definition deref (h : Heap) (f : Fields) : gmap string Value :=
  match f with
  | None => ∅
  | Some l => default ∅ (h !! l)
  end.

(** A [Fields] value of a running program is nil or an allocated table. *)
Definition valid (h : Heap) (f : Fields) : Prop :=
  match f with
  | None => True
  | Some l => l ∈ dom h
  end.

(** [len(m)] *)
Definition len (h : Heap) (f : Fields) : nat := size (deref h f).

(** [make(Fields, n)]: a new empty table (the capacity hint has no
    observable effect). *)
Definition make (h : Heap) : positive * Heap :=
  let l := fresh (dom h) in (l, <[l := ∅]> h).

(** [m[k] = v] on the table at [l]. *)
Definition store (l : positive) (k : string) (v : Value) (h : Heap) : Heap :=
  alter (insert k v) l h.

(** [for k, v := range src { dst[k] = v }] visiting the entries in the
    order [kvs]. *)
Definition range_store_list (dst : positive) (kvs : list (string * Value)) (h : Heap) : Heap :=
  foldl (fun h kv => store dst kv.1 kv.2 h) h kvs.

(** The same loop over a table; Go leaves the order of a [range] over a
    map open, [range_store_any_order] below shows it does not matter. *)
Definition range_store (dst : positive) (src : gmap string Value) (h : Heap) : Heap :=
  range_store_list dst (map_to_list src) h.

(** [func (logger Sugar) WithFields(fields Fields) Sugar] *)
Definition Sugar_WithFields (logger : Sugar) (flds : Fields) (h : Heap) : Sugar * Heap :=
  let oldLen := len h (fields logger) in
  if decide (oldLen = 0%nat) then
    ({| logr := logr logger; fields := flds |}, h)
  else
    let '(l, h1) := make h in
    let h2 := range_store l (deref h1 (fields logger)) h1 in
    let h3 := range_store l (deref h2 flds) h2 in
    ({| logr := logr logger; fields := Some l |}, h3).

(** [Fields{key: value}]: a map literal allocates a table with one entry. *)
Definition Fields_literal (key : string) (value : Value) (h : Heap) : Fields * Heap :=
  let '(l, h1) := make h in (Some l, store l key value h1).

(** [func (logger Sugar) WithField(key string, value interface{}) Sugar] *)
Definition Sugar_WithField (logger : Sugar) (key : string) (value : Value) (h : Heap)
  : Sugar * Heap :=
  let '(m, h1) := Fields_literal key value h in
  Sugar_WithFields logger m h1.

End FieldStore.

(** ** The logging calls of the front-end *)
Section Frontend.
Context {Value : Type}.

(** A stack frame, as the record keeps it. *)
Definition Frame := N.

(** Modelled from the spec: the [LogRec] struct, declared outside the
    files at hand. Its fields are the spec's Record (level, source
    logger, template, args, newline style, creation time, captured
    stack); [newline] is the one field the front-end assigns. *)
Record LogRec := {
  rec_time : N;
  rec_level : Level;
  rec_logger : Sugar;
  rec_template : string;
  rec_args : list Value;
  newline : bool;
  rec_stack : option (list Frame)
}.

(** [rec.newline = b] *)
Definition set_newline (b : bool) (rec : LogRec) : LogRec :=
  {| rec_time := rec_time rec; rec_level := rec_level rec;
     rec_logger := rec_logger rec; rec_template := rec_template rec;
     rec_args := rec_args rec; newline := b; rec_stack := rec_stack rec |}.

(** The calls the front-end makes outside its own file: three methods of
    the dispatcher and the record constructor. *)
Inductive Call : Type :=
| IsLevelEnabled (lg : LogrRef) (lvl : Level)
| NewLogRec (lvl : Level) (logger : Sugar) (template : string)
            (args : list Value) (incStacktrace : bool)
| enqueue (lg : LogrRef) (rec : LogRec)
| exit (lg : LogrRef) (code : Z).

(** What each call returns. *)
Definition Resp (c : Call) : Type :=
  match c with
  | IsLevelEnabled _ _ => LevelStatus
  | NewLogRec _ _ _ _ _ => LogRec
  | enqueue _ _ => unit
  | exit _ _ => unit
  end.

(** A front-end method: it returns, panics with a value, or makes a call
    and goes on with the answer. *)
Inductive Prog (A : Type) : Type :=
| Ret (a : A)
| Raise (v : string)
| Do (c : Call) (k : Resp c -> Prog A).
Arguments Ret {A} a.
Arguments Raise {A} v.
Arguments Do {A} c k.

Fixpoint bind {A B : Type} (p : Prog A) (f : A -> Prog B) : Prog B :=
  match p with
  | Ret a => f a
  | Raise v => Raise v
  | Do c k => Do c (fun r => bind (k r) f)
  end.

#[export] Instance Prog_ret : MRet Prog := fun A a => Ret a.
#[export] Instance Prog_bind : MBind Prog := fun A B f p => bind p f.

Definition call (c : Call) : Prog (Resp c) := Do c Ret.

(** [panic(v)] *)
Definition panic {A : Type} (v : string) : Prog A := Raise v.

(** The built-in levels and [fmt.Sprint], declared outside the files at
    hand. *)
Variables (Trace Debug Info Warn Error Fatal Panic : Level).
Variable Sprint : list Value -> string.

(** [func (logger Sugar) Log(lvl Level, args ...interface{})] *)
Definition Sugar_Log (logger : Sugar) (lvl : Level) (args : list Value) : Prog unit :=
  status ← call (IsLevelEnabled (logr logger) lvl);
  if Enabled status then
    rec ← call (NewLogRec lvl logger "" args (StatusStacktrace status));
    call (enqueue (logr logger) rec)
  else mret tt.

Definition Sugar_Trace (logger : Sugar) (args : list Value) : Prog unit :=
  Sugar_Log logger Trace args.

Definition Sugar_Debug (logger : Sugar) (args : list Value) : Prog unit :=
  Sugar_Log logger Debug args.

Definition Sugar_Info (logger : Sugar) (args : list Value) : Prog unit :=
  Sugar_Log logger Info args.

Definition Sugar_Print (logger : Sugar) (args : list Value) : Prog unit :=
  Sugar_Info logger args.

Definition Sugar_Warn (logger : Sugar) (args : list Value) : Prog unit :=
  Sugar_Log logger Warn args.

Definition Sugar_Error (logger : Sugar) (args : list Value) : Prog unit :=
  Sugar_Log logger Error args.

(** [logger.Log(Fatal, args...); logger.logr.exit(1)] *)
Definition Sugar_Fatal (logger : Sugar) (args : list Value) : Prog unit :=
  _ ← Sugar_Log logger Fatal args;
  call (exit (logr logger) 1%Z).

(** [logger.Log(Panic, args...); panic(fmt.Sprint(args...))] *)
Definition Sugar_Panic (logger : Sugar) (args : list Value) : Prog unit :=
  _ ← Sugar_Log logger Panic args;
  panic (Sprint args).

(** [func (logger Sugar) Logf(lvl Level, format string, args ...interface{})] *)
Definition Sugar_Logf (logger : Sugar) (lvl : Level) (format : string)
    (args : list Value) : Prog unit :=
  status ← call (IsLevelEnabled (logr logger) lvl);
  if Enabled status then
    rec ← call (NewLogRec lvl logger format args (StatusStacktrace status));
    call (enqueue (logr logger) rec)
  else mret tt.

Definition Sugar_Tracef (logger : Sugar) (format : string) (args : list Value) : Prog unit :=
  Sugar_Logf logger Trace format args.

Definition Sugar_Debugf (logger : Sugar) (format : string) (args : list Value) : Prog unit :=
  Sugar_Logf logger Debug format args.

Definition Sugar_Infof (logger : Sugar) (format : string) (args : list Value) : Prog unit :=
  Sugar_Logf logger Info format args.

Definition Sugar_Printf (logger : Sugar) (format : string) (args : list Value) : Prog unit :=
  Sugar_Infof logger format args.

Definition Sugar_Warnf (logger : Sugar) (format : string) (args : list Value) : Prog unit :=
  Sugar_Logf logger Warn format args.

Definition Sugar_Errorf (logger : Sugar) (format : string) (args : list Value) : Prog unit :=
  Sugar_Logf logger Error format args.

(** [logger.Logf(Fatal, format, args...); logger.logr.exit(1)] *)
Definition Sugar_Fatalf (logger : Sugar) (format : string) (args : list Value) : Prog unit :=
  _ ← Sugar_Logf logger Fatal format args;
  call (exit (logr logger) 1%Z).

(** [logger.Logf(Panic, format, args...)], and nothing after it. *)
Definition Sugar_Panicf (logger : Sugar) (format : string) (args : list Value) : Prog unit :=
  Sugar_Logf logger Panic format args.

(** [func (logger Sugar) Logln(lvl Level, args ...interface{})] *)
Definition Sugar_Logln (logger : Sugar) (lvl : Level) (args : list Value) : Prog unit :=
  status ← call (IsLevelEnabled (logr logger) lvl);
  if Enabled status then
    rec ← call (NewLogRec lvl logger "" args (StatusStacktrace status));
    let rec := set_newline true rec in
    call (enqueue (logr logger) rec)
  else mret tt.

Definition Sugar_Traceln (logger : Sugar) (args : list Value) : Prog unit :=
  Sugar_Logln logger Trace args.

Definition Sugar_Debugln (logger : Sugar) (args : list Value) : Prog unit :=
  Sugar_Logln logger Debug args.

Definition Sugar_Infoln (logger : Sugar) (args : list Value) : Prog unit :=
  Sugar_Logln logger Info args.

Definition Sugar_Println (logger : Sugar) (args : list Value) : Prog unit :=
  Sugar_Infoln logger args.

Definition Sugar_Warnln (logger : Sugar) (args : list Value) : Prog unit :=
  Sugar_Logln logger Warn args.

Definition Sugar_Errorln (logger : Sugar) (args : list Value) : Prog unit :=
  Sugar_Logln logger Error args.

(** [logger.Logln(Fatal, args...); logger.logr.exit(1)] *)
Definition Sugar_Fatalln (logger : Sugar) (args : list Value) : Prog unit :=
  _ ← Sugar_Logln logger Fatal args;
  call (exit (logr logger) 1%Z).

(** [logger.Logln(Panic, args...)], and nothing after it. *)
Definition Sugar_Panicln (logger : Sugar) (args : list Value) : Prog unit :=
  Sugar_Logln logger Panic args.

(** *** Running a method against a dispatcher *)

(** The dispatcher as the front-end sees it, over a state [W] of its
    own. The exit hook can be replaced; the default one, [os.Exit], ends
    the process and does not return: [None]. *)
Record Dispatcher (W : Type) := {
  on_IsLevelEnabled : LogrRef -> Level -> W -> LevelStatus * W;
  on_NewLogRec : Level -> Sugar -> string -> list Value -> bool -> W -> LogRec * W;
  on_enqueue : LogrRef -> LogRec -> W -> W;
  on_exit : LogrRef -> Z -> W -> option W
}.
Arguments on_IsLevelEnabled {W} _ _ _ _.
Arguments on_NewLogRec {W} _ _ _ _ _ _ _.
Arguments on_enqueue {W} _ _ _ _.
Arguments on_exit {W} _ _ _ _.

(** How a call to the method ends. *)
Inductive Outcome (A : Type) : Type :=
| Returned (a : A)
| Panicked (v : string)
| Exited.
Arguments Returned {A} a.
Arguments Panicked {A} v.
Arguments Exited {A}.

(** The end of a run: the outcome, the dispatcher's state, and the calls
    made, in order. *)
Record Run (A W : Type) := { outcome : Outcome A; world : W; trace : list Call }.
Arguments outcome {A W} _.
Arguments world {A W} _.
Arguments trace {A W} _.

Definition handle {W : Type} (D : Dispatcher W) (c : Call) (w : W) : option (Resp c * W) :=
  match c return option (Resp c * W) with
  | IsLevelEnabled lg lvl => Some (on_IsLevelEnabled D lg lvl w)
  | NewLogRec lvl logger template args st => Some (on_NewLogRec D lvl logger template args st w)
  | enqueue lg rec => Some (tt, on_enqueue D lg rec w)
  | exit lg code => match on_exit D lg code w with
                    | Some w' => Some (tt, w')
                    | None => None
                    end
  end.

Fixpoint run {A W : Type} (D : Dispatcher W) (p : Prog A) (w : W) : Run A W :=
  match p with
  | Ret a => {| outcome := Returned a; world := w; trace := [] |}
  | Raise v => {| outcome := Panicked v; world := w; trace := [] |}
  | Do c k =>
      match handle D c w with
      | Some (r, w') =>
          let r' := run D (k r) w' in
          {| outcome := outcome r'; world := world r'; trace := c :: trace r' |}
      | None => {| outcome := Exited; world := w; trace := [c] |}
      end
  end.

(** The calls one logging call is expected to make: the level check,
    and, the level enabled, the record and its enqueue. *)
Definition log_calls {W : Type} (D : Dispatcher W) (w : W) (logger : Sugar) (lvl : Level)
    (template : string) (args : list Value) (nl : bool) : list Call :=
  let '(status, w1) := on_IsLevelEnabled D (logr logger) lvl w in
  if Enabled status then
    let '(rec, _) := on_NewLogRec D lvl logger template args (StatusStacktrace status) w1 in
    [ IsLevelEnabled (logr logger) lvl;
      NewLogRec lvl logger template args (StatusStacktrace status);
      enqueue (logr logger) (if nl then set_newline true rec else rec) ]
  else [ IsLevelEnabled (logr logger) lvl ].

(** The dispatcher's state after those calls. *)
Definition log_world {W : Type} (D : Dispatcher W) (w : W) (logger : Sugar) (lvl : Level)
    (template : string) (args : list Value) (nl : bool) : W :=
  let '(status, w1) := on_IsLevelEnabled D (logr logger) lvl w in
  if Enabled status then
    let '(rec, w2) := on_NewLogRec D lvl logger template args (StatusStacktrace status) w1 in
    on_enqueue D (logr logger) (if nl then set_newline true rec else rec) w2
  else w1.

Definition is_NewLogRec (c : Call) : bool :=
  match c with NewLogRec _ _ _ _ _ => true | _ => false end.

Definition is_enqueue (c : Call) : bool :=
  match c with enqueue _ _ => true | _ => false end.

Definition is_exit (c : Call) : bool :=
  match c with exit _ _ => true | _ => false end.

(** A run that ends with the exit hook called on the state [w1]. *)
Definition exit_after {W : Type} (D : Dispatcher W) (lg : LogrRef) (w1 : W)
    (calls : list Call) : Run unit W :=
  match on_exit D lg 1%Z w1 with
  | Some w2 => {| outcome := Returned tt; world := w2; trace := calls ++ [exit lg 1%Z] |}
  | None => {| outcome := Exited; world := w1; trace := calls ++ [exit lg 1%Z] |}
  end.

End Frontend.

Arguments Ret {Value A} a.
Arguments Raise {Value A} v.
Arguments Do {Value A} c k.
Arguments on_IsLevelEnabled {Value W} _ _ _ _.
Arguments on_NewLogRec {Value W} _ _ _ _ _ _ _.
Arguments on_enqueue {Value W} _ _ _ _.
Arguments on_exit {Value W} _ _ _ _.
Arguments Returned {A} a.
Arguments Panicked {A} v.
Arguments Exited {A}.
Arguments outcome {Value A W} _.
Arguments world {Value A W} _.
Arguments trace {Value A W} _.

(** ** The dispatcher behind the front-end, for targets with custom filters *)

(** Modelled from the spec: the explicit filter ([CustomFilter] in the
    tests), whose file is not at hand: a set of registered levels keyed by
    id. *)
Abbreviation CustomFilter := (gmap N Level).

Section Dispatch.
Context {Value : Type}.

(** [MaxLevelID], a constant of a file that is not at hand. *)
Variable MaxLevelID : LevelID.

(** Modelled from the spec: [filter.Add(levels...)]. Registration has no
    error result and accepts every level, one with an id above
    [MaxLevelID] included. *)
Definition CustomFilter_Add (lvls : list Level) (f : CustomFilter) : CustomFilter :=
  foldl (fun f l => <[ID l := l]> f) f lvls.

(** Modelled from the spec: the errors handed to the error-reporting
    hook, as far as the dispatcher's side raises them. *)
Inductive LogrError : Type :=
| InvalidLevelID (id : LevelID)
| QueueFull (target : nat) (lvl : Level).

(** Modelled from the spec: the result of [Filter.Evaluate]. *)
Record Evaluation := {
  ev_enabled : bool;
  ev_stacktrace : bool;
  ev_error : option LogrError
}.

(** Modelled from the spec: [Evaluate] of the explicit filter. A
    candidate is enabled only if its id is registered, the stack trace
    requirement then being the registered level's flag; a registered level
    whose id exceeds [MaxLevelID] evaluates to the error [InvalidLevelID]
    with enabled false. *)
Definition CustomFilter_Evaluate (f : CustomFilter) (lvl : Level) : Evaluation :=
  match f !! ID lvl with
  | Some registered =>
      if MaxLevelID <? ID lvl then
        {| ev_enabled := false; ev_stacktrace := false;
           ev_error := Some (InvalidLevelID (ID lvl)) |}
      else
        {| ev_enabled := true; ev_stacktrace := Stacktrace registered; ev_error := None |}
  | None => {| ev_enabled := false; ev_stacktrace := false; ev_error := None |}
  end.

(** Modelled from the spec: a target, as far as the dispatcher's side of
    it goes: its filter (an explicit one; the threshold variant is left
    out), the fixed capacity of its queue, and the queue, oldest record
    first. The worker that drains it is left out. *)
Record Target := {
  filter_of : CustomFilter;
  capacity : nat;
  queue : list (@LogRec Value)
}.

(** Modelled from the spec: the outcomes of [Target.Offer]. *)
Inductive OfferOutcome : Type := Accepted | Dropped | Rejected.

(** Modelled from the spec: [Target.Offer]. *)
Definition Target_Offer (t : Target) (rec : LogRec) : OfferOutcome * Target :=
  if ev_enabled (CustomFilter_Evaluate (filter_of t) (rec_level rec)) then
    if (length (queue t) <? capacity t)%nat then
      (Accepted,
       {| filter_of := filter_of t; capacity := capacity t; queue := queue t ++ [rec] |})
    else (Dropped, t)
  else (Rejected, t).

(** Modelled from the spec: the dispatcher's state: its targets, the
    errors handed to the error-reporting hook so far (oldest first), the
    clock and the caller's stack that a new record captures. *)
Record LogrState := {
  targets : list Target;
  reported : list LogrError;
  clock : N;
  callers : list Frame
}.

(** Modelled from the spec: one call of the error-reporting hook,
    [OnLoggerError]. *)
Definition ReportError (err : LogrError) (lgr : LogrState) : LogrState :=
  {| targets := targets lgr; reported := reported lgr ++ [err];
     clock := clock lgr; callers := callers lgr |}.

(** Modelled from the spec: [IsLevelEnabled]. Every target's filter is
    evaluated; the answer is the OR of enabled, and the OR of the stack
    trace requirement among the enabled targets; an evaluation error is
    routed to the hook once for the call. *)
Definition Logr_IsLevelEnabled (lgr : LogrState) (lvl : Level) : LevelStatus * LogrState :=
  let evs := map (fun t => CustomFilter_Evaluate (filter_of t) lvl) (targets lgr) in
  let status :=
    {| StatusStacktrace := existsb (fun e => ev_enabled e && ev_stacktrace e) evs;
       Enabled := existsb ev_enabled evs |} in
  match omap ev_error evs with
  | err :: _ => (status, ReportError err lgr)
  | [] => (status, lgr)
  end.

(** Modelled from the spec: [NewLogRec]: the time is taken, the field
    set is referenced through the logger, and the stack is captured only
    when asked for. *)
Definition Logr_NewLogRec (lvl : Level) (logger : Sugar) (template : string)
    (args : list Value) (incStacktrace : bool) (lgr : LogrState) : LogRec * LogrState :=
  ({| rec_time := clock lgr; rec_level := lvl; rec_logger := logger;
      rec_template := template; rec_args := args; newline := false;
      rec_stack := if incStacktrace then Some (callers lgr) else None |},
   {| targets := targets lgr; reported := reported lgr;
      clock := N.succ (clock lgr); callers := callers lgr |}).

(** Modelled from the spec: one step of [Enqueue]: the record is
    offered to target [i]; a drop goes to the hook. *)
Definition offer_step (rec : LogRec) (acc : list Target * list LogrError)
    (it : nat * Target) : list Target * list LogrError :=
  match Target_Offer it.2 rec with
  | (Accepted, t') => (acc.1 ++ [t'], acc.2)
  | (Dropped, t') => (acc.1 ++ [t'], acc.2 ++ [QueueFull it.1 (rec_level rec)])
  | (Rejected, t') => (acc.1 ++ [t'], acc.2)
  end.

(** Modelled from the spec: [Enqueue]. Each target's filter is evaluated
    again, inside [Target_Offer], and the targets that want the level are
    offered the record. *)
Definition Logr_enqueue (rec : LogRec) (lgr : LogrState) : LogrState :=
  let r := foldl (offer_step rec) ([], reported lgr) (imap (fun i t => (i, t)) (targets lgr)) in
  {| targets := r.1; reported := r.2; clock := clock lgr; callers := callers lgr |}.

(** Modelled from the spec: the dispatcher the front-end runs against;
    the exit hook is the default one, which ends the process. *)
Definition SpecDispatcher : Dispatcher LogrState :=
  {| on_IsLevelEnabled := fun _ lvl lgr => Logr_IsLevelEnabled lgr lvl;
     on_NewLogRec := Logr_NewLogRec;
     on_enqueue := fun _ rec lgr => Logr_enqueue rec lgr;
     on_exit := fun _ _ _ => None |}.

(** The levels of levelcustom_test.go. *)
Definition LoginLevel : Level := {| ID := 100; Name := "login "; Stacktrace := false |}.
Definition LogoutLevel : Level := {| ID := 101; Name := "logout"; Stacktrace := false |}.
Definition BadLevel : Level :=
  {| ID := MaxLevelID + 1; Name := "invalid"; Stacktrace := false |}.

End Dispatch.

(** The filter of TestCustomLevel: [filter.Add(LoginLevel, LogoutLevel)]
    on a new [CustomFilter]. *)
Definition login_logout_filter : CustomFilter :=
  CustomFilter_Add [LoginLevel; LogoutLevel] ∅.

(** *** Stores and dispatchers to run the methods on *)

(** A store with two tables: a parent with the field [user], and a
    caller's map with [role]. *)
Definition heap0 : gmap positive (gmap string nat) :=
  <[1%positive := {[ "user"%string := 7%nat ]}]>
    (<[2%positive := {[ "role"%string := 3%nat ]}]> ∅).

Definition parent0 : Sugar := {| logr := 1%positive; fields := Some 1%positive |}.

(** The scenarios of levelcustom_test.go: one target of capacity 1000
    behind a custom filter, and a logger with two fields. The values of
    [MaxLevelID] and of the built-in levels stand for the absent
    declarations. *)
Definition test_logger : Sugar := {| logr := 1%positive; fields := Some 1%positive |}.

Definition test_lgr (f : CustomFilter) : @LogrState string :=
  {| targets := [ {| filter_of := f; capacity := 1000; queue := [] |} ];
     reported := []; clock := 0; callers := [] |}.

Definition test_Error : Level := {| ID := 2; Name := "error"; Stacktrace := false |}.
Definition test_Debug : Level := {| ID := 5; Name := "debug"; Stacktrace := false |}.

End Logr.

(** ** Package format: json.go *)
Module Format.

(** [logr.FieldType], as far as the switch of [encodeField] names it. *)
Inductive FieldType : Type :=
| UnknownType | ArrayMarshalerType | ObjectMarshalerType | BinaryType | BoolType
| ByteStringType | Complex128Type | Complex64Type | DurationType | Float64Type
| Float32Type | Int64Type | Int32Type | Int16Type | Int8Type | StringType
| TimeType | TimeFullType | Uint64Type | Uint32Type | Uint16Type | Uint8Type
| UintptrType | ReflectType | NamespaceType | StringerType | ErrorType | SkipType.

(** [logr.Field], with the members json.go reads: [Key], [Type] and
    [Integer]. *)
Record Field := { Key : string; FType : FieldType; Integer : Z }.

(** The zero value that [make] fills a new slice with. *)
Definition zeroField : Field := {| Key := ""; FType := UnknownType; Integer := 0 |}.

(** A slice header: nil, or a window of [slen] elements from [off] on
    into a backing array of the store. *)
Record Slice := { base : option positive; off : nat; slen : nat }.

(** The store of backing arrays. *)
Abbreviation Arrays := (gmap positive (list Field)).

(** The elements a slice shows. *)
Definition elems (h : Arrays) (s : Slice) : list Field :=
  match base s with
  | None => []
  | Some l => take (slen s) (drop (off s) (default [] (h !! l)))
  end.

(** A slice of a running program: nil and empty, or a window that fits
    its allocated array. *)
Definition valid_slice (h : Arrays) (s : Slice) : Prop :=
  match base s with
  | None => slen s = 0%nat
  | Some l => exists arr, h !! l = Some arr /\ (off s + slen s <= length arr)%nat
  end.

(** Overwriting the window of [s] with [xs], which has its length. *)
Definition write_window (s : Slice) (xs : list Field) (h : Arrays) : Arrays :=
  match base s with
  | None => h
  | Some l =>
      alter (fun arr => take (off s) arr ++ xs ++ drop (off s + length xs) arr) l h
  end.

(** [make([]logr.Field, n)] *)
Definition make_slice (n : nat) (h : Arrays) : Slice * Arrays :=
  let l := fresh (dom h) in
  ({| base := Some l; off := 0; slen := n |}, <[l := replicate n zeroField]> h).

(** [copy(dst, src)]: the first [min(len(dst), len(src))] elements. *)
Definition copy (dst src : Slice) (h : Arrays) : Arrays :=
  let n := Nat.min (slen dst) (slen src) in
  write_window dst (take n (elems h src)) h.

(** [a.Key < b.Key] on Go strings: byte-wise lexicographic. *)
Definition key_less (a b : Field) : bool := String.ltb (Key a) (Key b).

(** What [sort.Slice] asks of its [less]: a strict weak order. *)
Record StrictWeakOrder {A : Type} (less : A -> A -> bool) : Prop := {
  swo_irrefl : forall a, less a a = false;
  swo_trans : forall a b c, less a b = true -> less b c = true -> less a c = true;
  swo_cotrans : forall a b c, less a b = true -> less a c = true \/ less c b = true
}.

(** A context sorter: a Go function from a slice to a slice, with the
    store it may read and write. *)
Definition Sorter : Type := Slice -> Arrays -> Slice * Arrays.

(** [type JSON struct] *)
Record JSON := {
  DisableTimestamp : bool;
  DisableLevel : bool;
  DisableMsg : bool;
  DisableContext : bool;
  DisableStacktrace : bool;
  TimestampFormat : string;
  Indent : string;
  EscapeHTML : bool;
  KeyTimestamp : string;
  KeyLevel : string;
  KeyMsg : string;
  KeyContextFields : string;
  KeyStacktrace : string;
  ContextSorter : option Sorter;
  once : bool
}.

(** [j] with the four key names set and [once] done; the other members
    as they are. *)
Definition with_keys (j : JSON) (kt kl km ks : string) : JSON :=
  {| DisableTimestamp := DisableTimestamp j; DisableLevel := DisableLevel j;
     DisableMsg := DisableMsg j; DisableContext := DisableContext j;
     DisableStacktrace := DisableStacktrace j; TimestampFormat := TimestampFormat j;
     Indent := Indent j; EscapeHTML := EscapeHTML j;
     KeyTimestamp := kt; KeyLevel := kl; KeyMsg := km;
     KeyContextFields := KeyContextFields j; KeyStacktrace := ks;
     ContextSorter := ContextSorter j; once := true |}.

Definition or_default (s d : string) : string := if String.eqb s "" then d else s.

(** [j.once.Do(j.applyDefaultKeyNames)] *)
Definition applyDefaultKeyNames_once (j : JSON) : JSON :=
  if once j then j
  else with_keys j (or_default (KeyTimestamp j) "timestamp") (or_default (KeyLevel j) "level")
                   (or_default (KeyMsg j) "msg") (or_default (KeyStacktrace j) "stacktrace").

(** [switch key { case rec.KeyTimestamp, rec.KeyLevel, rec.KeyMsg,
    rec.KeyStacktrace: ... }] *)
Definition reserved (j : JSON) (key : string) : bool :=
  String.eqb key (KeyTimestamp j) || String.eqb key (KeyLevel j)
  || String.eqb key (KeyMsg j) || String.eqb key (KeyStacktrace j).

(** The longest of the four reserved names bounds the recursion of
    [prefixCollision]: a longer key collides with none. *)
Definition longest_reserved (j : JSON) : nat :=
  Nat.max (Nat.max (String.length (KeyTimestamp j)) (String.length (KeyLevel j)))
          (Nat.max (String.length (KeyMsg j)) (String.length (KeyStacktrace j))).

Lemma reserved_length (j : JSON) (key : string) :
  reserved j key = true -> (String.length key <= longest_reserved j)%nat.
Proof.
  unfold reserved, longest_reserved. rewrite !orb_true_iff, !String.eqb_eq.
  intros [[[-> | ->] | ->] | ->]; lia.
Qed.

Definition inspect {A : Type} (a : A) : {b : A | a = b} := exist _ a eq_refl.

(** [func (rec JSONLogRec) prefixCollision(key string) string] *)
Equations? prefixCollision (j : JSON) (key : string) : string
  by wf (S (longest_reserved j) - String.length key)%nat lt :=
  prefixCollision j key with inspect (reserved j key) := {
    | exist _ true _ => prefixCollision j ("_" +:+ key)
    | exist _ false _ => key }.
Proof.
  apply reserved_length in e. change (""%string +:+ key) with key. lia.
Qed.

(** A stack frame, [runtime.Frame]. *)
Record RFrame := { Function : string; File : string; Line : Z }.

(** What the encoder has been given: the members of the object, in
    order. *)
Unset Elimination Schemes.
Inductive JValue : Type :=
| JString (s : string)
| JTime (t : N) (layout : string)
| JBool (i : Z)
| JInt (i : Z)
| JObject (members : list (string * JValue))
| JArray (items : list JValue).
Set Elimination Schemes.

Definition Member : Type := string * JValue.

(** [func encodeField(enc *gojay.Encoder, key string, field logr.Field)],
    as the switch on [field.Type] stands in the source: the [UnknownType]
    case writes under [field.Key], the [BoolType] case under [key]; the
    [ArrayMarshalerType] case breaks off after [enc.] and the other cases
    of a field type have no statement. The cases that follow them in the
    source name Go types and a [default]; every field type has a case of
    its own, so none of these is reached. *)
Definition encodeField (enc : list Member) (key : string) (field : Field) : list Member :=
  match FType field with
  | UnknownType => enc ++ [(Key field, JString "UnknownType")]
  | BoolType => enc ++ [(key, JBool (Integer field))]
  | _ => enc
  end.

(** [func (f jsonFields) MarshalJSONObject(enc *gojay.Encoder)] *)
Definition jsonFields_MarshalJSONObject (f : list Field) (enc : list Member) : list Member :=
  foldl (fun enc ctxField => encodeField enc (Key ctxField) ctxField) enc f.

(** [func (f stackFrame) MarshalJSONObject(enc *gojay.Encoder)] *)
Definition stackFrame_MarshalJSONObject (f : RFrame) : JValue :=
  JObject [("Function"%string, JString (Function f)); ("File"%string, JString (File f));
           ("Line"%string, JInt (Line f))].

(** What the accessors of [*logr.LogRec] return ([Time], [Level], [Msg],
    [Fields], [StackFrames]); the methods are outside the files at hand
    and are read here as plain reads of the record. *)
Record LogRec := {
  Time : N;
  Level : Logr.Level;
  Msg : string;
  Fields : Slice;
  StackFrames : list RFrame
}.

(** The store [Format] runs in: the backing arrays and the records. *)
Record World := { arrays : Arrays; records : gmap positive LogRec }.

(** [type JSONLogRec struct { *logr.LogRec; *JSON; stacktrace bool; sorter ... }] *)
Record JSONLogRec := {
  jl_LogRec : positive;
  jl_JSON : JSON;
  stacktrace : bool;
  sorter : Sorter
}.

Section Sorting.
(** [sort.Slice] of the Go library, as a function on the elements of the
    slice. It is not stable, so it is left open here and taken by its
    contract in the facts below. *)
Variable sort_elems : (Field -> Field -> bool) -> list Field -> list Field.

(** [logr.DefTimestampFormat], a constant of package logr. *)
Variable DefTimestampFormat : string.

(** [sort.Slice(s, less)]: sorts the window in place. *)
Definition sort_Slice (s : Slice) (less : Field -> Field -> bool) (h : Arrays) : Arrays :=
  write_window s (sort_elems less (elems h s)) h.

(** [func (j *JSON) defaultContextSorter(fields []logr.Field) []logr.Field];
    the receiver is not used. *)
Definition defaultContextSorter (fields : Slice) (h : Arrays) : Slice * Arrays :=
  let '(sorted, h1) := make_slice (slen fields) h in
  let h2 := copy sorted fields h1 in
  let h3 := sort_Slice sorted key_less h2 in
  (sorted, h3).

(** [func (rec JSONLogRec) MarshalJSONObject(enc *gojay.Encoder)], for
    the record [r] that [rec.LogRec] points to. *)
Definition MarshalJSONObject (rec : JSONLogRec) (r : LogRec) (enc : list Member)
    (h : Arrays) : list Member * Arrays :=
  let j := jl_JSON rec in
  let enc :=
    if negb (DisableTimestamp j) then
      let timestampFmt :=
        if String.eqb (TimestampFormat j) "" then DefTimestampFormat else TimestampFormat j in
      enc ++ [(KeyTimestamp j, JTime (Time r) timestampFmt)]
    else enc in
  let enc :=
    if negb (DisableLevel j) then enc ++ [(KeyLevel j, JString (Logr.Name (Level r)))]
    else enc in
  let enc := if negb (DisableMsg j) then enc ++ [(KeyMsg j, JString (Msg r))] else enc in
  let '(enc, h) :=
    if negb (DisableContext j) then
      let '(ctxFields, h') := sorter rec (Fields r) h in
      if negb (String.eqb (KeyContextFields j) "") then
        (enc ++ [(KeyContextFields j,
                  JObject (jsonFields_MarshalJSONObject (elems h' ctxFields) []))], h')
      else
        (foldl (fun enc cf => encodeField enc (prefixCollision j (Key cf)) cf)
               enc (elems h' ctxFields), h')
    else (enc, h) in
  let enc :=
    if stacktrace rec && negb (DisableStacktrace j) then
      let frames := StackFrames r in
      if (0 <? length frames)%nat then
        enc ++ [(KeyStacktrace j, JArray (map stackFrame_MarshalJSONObject frames))]
      else enc
    else enc in
  (enc, h).

(** [func (j *JSON) Format(rec, stacktrace, buf)], returning the buffer
    and an error. The buffer is the list of the
    lines written, a line being the members of one encoded object; a nil
    [buf] is a new empty buffer; the encoder writes into memory and
    reports no error, and it encodes a nil record as an object with no
    member. *)
Definition Format (j : JSON) (rec : positive) (stk : bool) (buf : option (list (list Member)))
    (w : World) : list (list Member) * JSON * World :=
  let j := applyDefaultKeyNames_once j in
  let buf := default [] buf in
  let srt := match ContextSorter j with
             | Some custom => custom
             | None => defaultContextSorter
             end in
  let jlr := {| jl_LogRec := rec; jl_JSON := j; stacktrace := stk; sorter := srt |} in
  match records w !! rec with
  | None => (buf ++ [[]], j, w)
  | Some r =>
      let '(members, h) := MarshalJSONObject jlr r [] (arrays w) in
      (buf ++ [members], j, {| arrays := h; records := records w |})
  end.

End Sorting.

(** The formatter with its default key names. *)
Definition defaultJSON : JSON :=
  applyDefaultKeyNames_once
    {| DisableTimestamp := false; DisableLevel := false; DisableMsg := false;
       DisableContext := false; DisableStacktrace := false; TimestampFormat := "";
       Indent := ""; EscapeHTML := false; KeyTimestamp := ""; KeyLevel := "";
       KeyMsg := ""; KeyContextFields := ""; KeyStacktrace := "";
       ContextSorter := None; once := false |}.

(** [n] underscores in front of [key]. *)
Fixpoint underscores (n : nat) (key : string) : string :=
  match n with
  | O => key
  | S n' => underscores n' ("_" +:+ key)
  end.

(** [b] is not less than [a]: [a] may stand before [b]. *)
Definition not_after (less : Field -> Field -> bool) : relation Field :=
  fun a b => less b a = false.

#[export] Instance not_after_dec (less : Field -> Field -> bool) (a b : Field) :
  Decision (not_after less a b).
Proof. unfold not_after. apply _. Defined.

(** Merge sort under that relation. *)
Definition go_sort (less : Field -> Field -> bool) (l : list Field) : list Field :=
  merge_sort (not_after less) l.

(** *** Records to run the formatter on *)

Definition field_user : Field := {| Key := "user"; FType := StringType; Integer := 0 |}.
Definition field_role : Field := {| Key := "role"; FType := StringType; Integer := 0 |}.
Definition field_msg : Field := {| Key := "msg"; FType := UnknownType; Integer := 0 |}.
Definition field_flag : Field := {| Key := "msg"; FType := BoolType; Integer := 1 |}.

Definition test_level : Logr.Level :=
  {| Logr.ID := 4; Logr.Name := "info"; Logr.Stacktrace := false |}.

(** A record whose context is [fs], in a store of its own. *)
Definition test_world (fs : list Field) : World :=
  {| arrays := {[ 1%positive := fs ]};
     records := {[ 1%positive :=
       {| Time := 0; Level := test_level; Msg := "hello";
          Fields := {| base := Some 1%positive; off := 0; slen := length fs |};
          StackFrames := [] |} ]} |}.

Definition test_fields (fs : list Field) : Slice :=
  {| base := Some 1%positive; off := 0; slen := length fs |}.

(** The keys of the members [l2] has beyond [l1]. *)
Definition new_keys (l1 l2 : list Member) : list string := (drop (length l1) l2).*1.

(** *** What a line holds *)



(** The four reserved key names, in the order of the [case] list. *)
Definition reserved_keys (j : JSON) : list string :=
  [KeyTimestamp j; KeyLevel j; KeyMsg j; KeyStacktrace j].



End Format.

(** ** Package logr: the field sets, the logging calls, custom levels *)
Module LogrFacts.
Import Logr.

Section FieldStoreFacts.
Context {Value : Type}.
Abbreviation Heap := (gmap positive (gmap string Value)).

(** *** What one table receives from a [range] loop *)

Lemma store_lookup (l : positive) (k : string) (v : Value) (h : Heap) (t : gmap string Value) :
  h !! l = Some t -> store l k v h = <[l := <[k := v]> t]> h.
Proof.
  intros Hl. unfold store. apply map_eq. intros i.
  destruct (decide (l = i)) as [->|Hne].
  - rewrite lookup_alter_eq, lookup_insert_eq, Hl. reflexivity.
  - rewrite lookup_alter_ne, lookup_insert_ne by done. reflexivity.
Qed.

Lemma store_other (l l' : positive) (k : string) (v : Value) (h : Heap) :
  l <> l' -> store l k v h !! l' = h !! l'.
Proof. intros Hne. unfold store. by rewrite lookup_alter_ne. Qed.

Lemma store_dom (l : positive) (k : string) (v : Value) (h : Heap) :
  dom (store l k v h) = dom h.
Proof. unfold store. apply dom_alter_L. Qed.

Lemma range_store_list_lookup (l : positive) (kvs : list (string * Value)) :
  forall (h : Heap) (t : gmap string Value),
    h !! l = Some t ->
    range_store_list l kvs h = <[l := foldl (fun t kv => <[kv.1 := kv.2]> t) t kvs]> h.
Proof.
  induction kvs as [|[k v] kvs IH]; intros h t Hl; simpl.
  - by rewrite insert_id.
  - unfold range_store_list in *. simpl.
    rewrite (store_lookup l k v h t Hl).
    rewrite (IH _ (<[k := v]> t)) by apply lookup_insert_eq.
    by rewrite insert_insert_eq.
Qed.

Lemma foldl_insert_union (kvs : list (string * Value)) :
  forall t : gmap string Value,
    NoDup kvs.*1 ->
    foldl (fun t kv => <[kv.1 := kv.2]> t) t kvs = list_to_map kvs ∪ t.
Proof.
  induction kvs as [|[k v] kvs IH]; intros t Hnd; simpl.
  - by rewrite (left_id_L ∅ (∪)).
  - inversion Hnd as [|? ? Hk Hnd']; subst.
    rewrite IH by done.
    rewrite <- insert_union_l.
    symmetry. apply insert_union_r.
    by apply not_elem_of_list_to_map_1.
Qed.

(** The loop leaves in [dst] its old entries overlaid with those of
    [src], in whatever order the entries of [src] are visited. *)
Lemma range_store_any_order (l : positive) (src t : gmap string Value)
    (kvs : list (string * Value)) (h : Heap) :
  kvs ≡ₚ map_to_list src ->
  h !! l = Some t ->
  range_store_list l kvs h = <[l := src ∪ t]> h.
Proof.
  intros Hp Hl. rewrite (range_store_list_lookup l kvs h t Hl).
  assert (Hnd : NoDup kvs.*1).
  { rewrite Hp. apply NoDup_fst_map_to_list. }
  rewrite foldl_insert_union by done.
  assert (Heq : (list_to_map kvs : gmap string Value) = src).
  { rewrite <- (list_to_map_to_list src). by apply list_to_map_proper. }
  by rewrite Heq.
Qed.

Lemma range_store_lookup (l : positive) (src t : gmap string Value) (h : Heap) :
  h !! l = Some t -> range_store l src h = <[l := src ∪ t]> h.
Proof. intros Hl. by apply range_store_any_order. Qed.

Lemma make_fresh (h : Heap) : (make h).1 ∉ dom h.
Proof. simpl. apply is_fresh. Qed.

Lemma deref_frame (h h' : Heap) (f : Fields) :
  valid h f -> (forall l, l ∈ dom h -> h' !! l = h !! l) -> deref h' f = deref h f.
Proof.
  destruct f as [l|]; simpl; [|done]. intros Hv Hfr. by rewrite Hfr.
Qed.

Lemma len_pos_valid (h : Heap) (f : Fields) : len h f <> 0%nat -> valid h f.
Proof.
  unfold len. destruct f as [l|]; simpl; [|done].
  intros Hn. apply elem_of_dom. destruct (h !! l); [by eexists|].
  simpl in Hn. by rewrite map_size_empty in Hn.
Qed.

(** What [WithFields] computes, case by case. *)
Lemma WithFields_empty_parent (p : Sugar) (m : Fields) (h : Heap) :
  len h (fields p) = 0%nat ->
  Sugar_WithFields p m h = ({| logr := logr p; fields := m |}, h).
Proof. intros H0. unfold Sugar_WithFields. by rewrite decide_True. Qed.

Lemma WithFields_copy (p : Sugar) (m : Fields) (h : Heap) :
  len h (fields p) <> 0%nat ->
  valid h m ->
  Sugar_WithFields p m h =
    ({| logr := logr p; fields := Some (fresh (dom h)) |},
     <[fresh (dom h) := deref h m ∪ deref h (fields p)]> h).
Proof.
  intros Hn Hm. unfold Sugar_WithFields. rewrite decide_False by done.
  unfold make. cbv zeta.
  set (l := fresh (dom h)).
  assert (Hl : l ∉ dom h) by apply is_fresh.
  assert (Hfr1 : forall l', l' ∈ dom h -> (<[l := ∅]> h : Heap) !! l' = h !! l').
  { intros l' Hl'. apply lookup_insert_ne. congruence. }
  rewrite (deref_frame h _ (fields p) (len_pos_valid _ _ Hn) Hfr1).
  rewrite (range_store_lookup l (deref h (fields p)) ∅ (<[l := ∅]> h))
    by apply lookup_insert_eq.
  rewrite insert_insert_eq, (right_id_L ∅ (∪)).
  assert (Hfr2 : forall l', l' ∈ dom h ->
            (<[l := deref h (fields p)]> h : Heap) !! l' = h !! l').
  { intros l' Hl'. apply lookup_insert_ne. congruence. }
  rewrite (deref_frame h _ m Hm Hfr2).
  rewrite (range_store_lookup l (deref h m) (deref h (fields p))
             (<[l := deref h (fields p)]> h)) by apply lookup_insert_eq.
  by rewrite insert_insert_eq.
Qed.

Lemma len_zero_deref (h : Heap) (f : Fields) : len h f = 0%nat -> deref h f = ∅.
Proof. unfold len. apply map_size_empty_inv. Qed.

Lemma valid_frame (h h' : Heap) (f : Fields) :
  valid h f -> dom h ⊆ dom h' -> valid h' f.
Proof. destruct f as [l|]; simpl; [|done]. set_solver. Qed.

(** The child of [WithFields]: the overlay, and the frame around it. *)
Lemma WithFields_spec (p : Sugar) (m : Fields) (h : Heap) :
  valid h m ->
  logr (Sugar_WithFields p m h).1 = logr p /\
  deref (Sugar_WithFields p m h).2 (fields (Sugar_WithFields p m h).1)
    = deref h m ∪ deref h (fields p) /\
  (forall l, l ∈ dom h -> (Sugar_WithFields p m h).2 !! l = h !! l) /\
  dom h ⊆ dom (Sugar_WithFields p m h).2 /\
  valid (Sugar_WithFields p m h).2 (fields (Sugar_WithFields p m h).1).
Proof.
  intros Hm. destruct (decide (len h (fields p) = 0%nat)) as [H0|Hn].
  - rewrite WithFields_empty_parent by done. simpl.
    rewrite (len_zero_deref _ _ H0), (right_id_L ∅ (∪)). done.
  - rewrite WithFields_copy by done. simpl.
    rewrite lookup_insert_eq. simpl. repeat split.
    + intros l Hl. apply lookup_insert_ne. intros <-. by apply (is_fresh (dom h)).
    + rewrite dom_insert_L. set_solver.
    + rewrite dom_insert_L. set_solver.
Qed.

Lemma Fields_literal_spec (k : string) (v : Value) (h : Heap) :
  Fields_literal k v h = (Some (fresh (dom h)), <[fresh (dom h) := {[k := v]}]> h).
Proof.
  unfold Fields_literal, make. cbv zeta.
  rewrite (store_lookup _ k v _ ∅) by apply lookup_insert_eq.
  by rewrite insert_insert_eq, insert_empty.
Qed.

(** The child of [WithField]. *)
Lemma WithField_spec (p : Sugar) (k : string) (v : Value) (h : Heap) :
  valid h (fields p) ->
  logr (Sugar_WithField p k v h).1 = logr p /\
  deref (Sugar_WithField p k v h).2 (fields (Sugar_WithField p k v h).1)
    = <[k := v]> (deref h (fields p)) /\
  (forall l, l ∈ dom h -> (Sugar_WithField p k v h).2 !! l = h !! l) /\
  dom h ⊆ dom (Sugar_WithField p k v h).2 /\
  valid (Sugar_WithField p k v h).2 (fields (Sugar_WithField p k v h).1).
Proof.
  intros Hp. unfold Sugar_WithField. rewrite Fields_literal_spec.
  set (l := fresh (dom h)). set (h1 := <[l := {[k := v]}]> h : Heap).
  assert (Hl : l ∉ dom h) by apply is_fresh.
  assert (Hfr : forall l', l' ∈ dom h -> h1 !! l' = h !! l').
  { intros l' Hl'. apply lookup_insert_ne. congruence. }
  assert (Hsub : dom h ⊆ dom h1).
  { unfold h1. rewrite dom_insert_L. set_solver. }
  assert (Hm : valid h1 (Some l)).
  { simpl. unfold h1. rewrite dom_insert_L. set_solver. }
  pose proof (WithFields_spec p (Some l) h1 Hm) as (E1 & E2 & E3 & E4 & E5).
  repeat split; try done.
  - rewrite E2, (deref_frame h h1 (fields p) Hp Hfr). simpl. unfold h1.
    rewrite lookup_insert_eq. simpl. by rewrite insert_union_singleton_l.
  - intros l' Hl'. rewrite E3 by (by apply Hsub). by apply Hfr.
  - by etrans.
Qed.

End FieldStoreFacts.

(** ** The claims on the field sets *)
Section FieldClaims.
Context {Value : Type}.
Implicit Types (h : gmap positive (gmap string Value)) (p : Sugar) (m : Fields).

(** C2. [p.WithFields(m)] returns a logger on the same dispatcher whose
    field set is [p]'s overlaid with [m], the keys of [m] winning; [p]'s
    own field set, and every table that existed before the call, is as it
    was; with no fields in [p] the store is the same afterwards (no table
    is allocated). [p.WithField(k, v)] is [WithFields] of the one-entry
    literal: its child holds [p]'s fields with [k] set to [v], [p] is as it
    was, and with no fields in [p] the literal's table is the only new one.
    Two children derived from one parent with different values for one key
    each keep their own. *)
Theorem WithFields_overlay_parent_unchanged p m h :
  valid h m -> valid h (fields p) ->
  (logr (Sugar_WithFields p m h).1 = logr p /\
   deref (Sugar_WithFields p m h).2 (fields (Sugar_WithFields p m h).1)
     = deref h m ∪ deref h (fields p) /\
   deref (Sugar_WithFields p m h).2 (fields p) = deref h (fields p) /\
   (forall l, l ∈ dom h -> (Sugar_WithFields p m h).2 !! l = h !! l) /\
   (len h (fields p) = 0%nat -> (Sugar_WithFields p m h).2 = h)) /\
  (forall k v,
     logr (Sugar_WithField p k v h).1 = logr p /\
     deref (Sugar_WithField p k v h).2 (fields (Sugar_WithField p k v h).1)
       = <[k := v]> (deref h (fields p)) /\
     deref (Sugar_WithField p k v h).2 (fields p) = deref h (fields p) /\
     (forall l, l ∈ dom h -> (Sugar_WithField p k v h).2 !! l = h !! l) /\
     (len h (fields p) = 0%nat ->
      dom (Sugar_WithField p k v h).2 = {[fresh (dom h)]} ∪ dom h)) /\
  (forall k v1 v2,
     let c1 := Sugar_WithField p k v1 h in
     let c2 := Sugar_WithField p k v2 c1.2 in
     deref c2.2 (fields c1.1) = <[k := v1]> (deref h (fields p)) /\
     deref c2.2 (fields c2.1) = <[k := v2]> (deref h (fields p)) /\
     deref c2.2 (fields p) = deref h (fields p)).
Proof.
  intros Hm Hp. split; [|split].
  - destruct (WithFields_spec p m h Hm) as (E1 & E2 & E3 & E4 & E5).
    repeat split; try done.
    + by apply deref_frame.
    + intros H0. by rewrite WithFields_empty_parent.
  - intros k v. destruct (WithField_spec p k v h Hp) as (E1 & E2 & E3 & E4 & E5).
    repeat split; try done.
    + by apply deref_frame.
    + intros H0. unfold Sugar_WithField. rewrite Fields_literal_spec.
      rewrite WithFields_empty_parent; simpl.
      * by rewrite dom_insert_L.
      * unfold len in *. rewrite <- H0. f_equal. apply deref_frame; [done|].
        intros l Hl. apply lookup_insert_ne. intros <-. by apply (is_fresh (dom h)).
  - intros k v1 v2 c1 c2.
    destruct (WithField_spec p k v1 h Hp) as (E1 & E2 & E3 & E4 & E5).
    fold c1 in E1, E2, E3, E4, E5.
    assert (Hp1 : valid c1.2 (fields p)) by (by eapply valid_frame).
    assert (Hd1 : deref c1.2 (fields p) = deref h (fields p)) by (by apply deref_frame).
    destruct (WithField_spec p k v2 c1.2) as (F1 & F2 & F3 & F4 & F5).
    { exact Hp1. }
    fold c2 in F1, F2, F3, F4, F5.
    repeat split.
    + rewrite (deref_frame c1.2 c2.2 (fields c1.1) E5 F3). exact E2.
    + by rewrite F2, Hd1.
    + by rewrite (deref_frame c1.2 c2.2 (fields p) Hp1 F3).
Qed.

(** C9. With no fields in the parent, the child of [WithFields(m)] holds
    the caller's [m] itself: the store is the same, and an entry the
    caller writes into [m] afterwards is read through the child. With a
    field in the parent the child holds a table of its own, allocated by
    the call, and a later write into [m] does not reach it. *)
Theorem WithFields_aliases_callers_map p m h :
  valid h m ->
  (len h (fields p) = 0%nat ->
   fields (Sugar_WithFields p m h).1 = m /\
   (Sugar_WithFields p m h).2 = h /\
   forall l k v, m = Some l ->
     deref (store l k v (Sugar_WithFields p m h).2) (fields (Sugar_WithFields p m h).1)
       = <[k := v]> (deref h m)) /\
  (len h (fields p) <> 0%nat ->
   fields (Sugar_WithFields p m h).1 = Some (fresh (dom h)) /\
   (fresh (dom h) ∉ dom h) /\
   fields (Sugar_WithFields p m h).1 <> m /\
   forall l k v, m = Some l ->
     deref (store l k v (Sugar_WithFields p m h).2) (fields (Sugar_WithFields p m h).1)
       = deref h m ∪ deref h (fields p)).
Proof.
  intros Hm. split.
  - intros H0. rewrite WithFields_empty_parent by done. simpl.
    repeat split. intros l k v ->. simpl in *.
    apply elem_of_dom in Hm as [t Ht].
    rewrite (store_lookup l k v h t Ht), lookup_insert_eq, Ht. done.
  - intros Hn. rewrite WithFields_copy by done. simpl.
    assert (Hl : fresh (dom h) ∉ dom h) by apply is_fresh.
    repeat split; try done.
    + intros <-. simpl in Hm. done.
    + intros l k v ->. simpl in Hm.
      rewrite store_other by (intros E; apply Hl; rewrite <- E; exact Hm).
      by rewrite lookup_insert_eq.
Qed.

End FieldClaims.

Section FrontendFacts.
Context {Value : Type}.
Variables (Trace Debug Info Warn Error Fatal Panic : Level).
Variable Sprint : list Value -> string.
Implicit Types (logger : Sugar) (lvl : Level) (args : list Value) (format template : string).

(** *** Runs of the logging calls *)

Lemma run_bind {A B W : Type} (D : @Dispatcher Value W) (p : @Prog Value A)
    (f : A -> Prog B) (w : W) :
  run D (bind p f) w =
    match outcome (run D p w) return @Run Value B W with
    | Returned a =>
        {| outcome := outcome (run D (f a) (world (run D p w)));
           world := world (run D (f a) (world (run D p w)));
           trace := trace (run D p w) ++ trace (run D (f a) (world (run D p w))) |}
    | Panicked v =>
        {| outcome := Panicked v; world := world (run D p w); trace := trace (run D p w) |}
    | Exited =>
        {| outcome := Exited; world := world (run D p w); trace := trace (run D p w) |}
    end.
Proof.
  revert w. induction p as [a|v|c k IH]; intros w; simpl.
  - by destruct (run D (f a) w).
  - reflexivity.
  - destruct (handle D c w) as [[r w']|]; simpl; [|reflexivity].
    rewrite IH. by destruct (outcome (run D (k r) w')).
Qed.

Ltac run_log :=
  intros; unfold log_calls, log_world; simpl;
  repeat match goal with
  | |- context [@on_IsLevelEnabled ?V ?W ?D ?lg ?lvl ?w] =>
      destruct (@on_IsLevelEnabled V W D lg lvl w) as [[? []] ?]; simpl
  | |- context [@on_NewLogRec ?V ?W ?D ?l ?g ?t ?a ?s ?w] =>
      destruct (@on_NewLogRec V W D l g t a s w) as [? ?]; simpl
  end; try reflexivity.

Lemma run_Log {W : Type} (D : @Dispatcher Value W) (w : W) logger lvl args :
  run D (Sugar_Log logger lvl args) w =
    {| outcome := Returned tt;
       world := log_world D w logger lvl "" args false;
       trace := log_calls D w logger lvl "" args false |}.
Proof. run_log. Qed.

Lemma run_Logf {W : Type} (D : @Dispatcher Value W) (w : W) logger lvl format args :
  run D (Sugar_Logf logger lvl format args) w =
    {| outcome := Returned tt;
       world := log_world D w logger lvl format args false;
       trace := log_calls D w logger lvl format args false |}.
Proof. run_log. Qed.

Lemma run_Logln {W : Type} (D : @Dispatcher Value W) (w : W) logger lvl args :
  run D (Sugar_Logln logger lvl args) w =
    {| outcome := Returned tt;
       world := log_world D w logger lvl "" args true;
       trace := log_calls D w logger lvl "" args true |}.
Proof. run_log. Qed.

Lemma run_then_exit {W : Type} (D : @Dispatcher Value W) (w : W) (p : @Prog Value unit)
    lg w1 calls :
  run D p w = {| outcome := Returned tt; world := w1; trace := calls |} ->
  @run Value unit W D (@bind Value unit (Resp (exit lg 1%Z)) p (fun _ => call (exit lg 1%Z))) w
    = exit_after D lg w1 calls.
Proof.
  intros Hp. rewrite (run_bind D p), Hp. unfold exit_after. simpl.
  by destruct (on_exit D lg 1%Z w1).
Qed.

Lemma log_calls_shape {W : Type} (D : @Dispatcher Value W) (w : W) logger lvl template args nl :
  head (log_calls D w logger lvl template args nl) = Some (IsLevelEnabled (logr logger) lvl) /\
  (Enabled (on_IsLevelEnabled D (logr logger) lvl w).1 = true ->
   log_calls D w logger lvl template args nl =
     [ IsLevelEnabled (logr logger) lvl;
       NewLogRec lvl logger template args
         (StatusStacktrace (on_IsLevelEnabled D (logr logger) lvl w).1);
       enqueue (logr logger)
         ((if nl then set_newline true else id)
            (on_NewLogRec D lvl logger template args
               (StatusStacktrace (on_IsLevelEnabled D (logr logger) lvl w).1)
               (on_IsLevelEnabled D (logr logger) lvl w).2).1) ]) /\
  (Enabled (on_IsLevelEnabled D (logr logger) lvl w).1 = false ->
   log_calls D w logger lvl template args nl = [ IsLevelEnabled (logr logger) lvl ]).
Proof.
  unfold log_calls.
  destruct (on_IsLevelEnabled D (logr logger) lvl w) as [[st en] w1]; simpl.
  destruct en; simpl.
  - destruct (on_NewLogRec D lvl logger template args st w1) as [rec w2]; simpl.
    repeat split; [|discriminate]. intros _. by destruct nl.
  - repeat split. discriminate.
Qed.

Lemma log_calls_no_exit {W : Type} (D : @Dispatcher Value W) (w : W) logger lvl template args nl :
  filter (fun c => is_exit c = true) (log_calls D w logger lvl template args nl) = [].
Proof.
  unfold log_calls.
  destruct (on_IsLevelEnabled D (logr logger) lvl w) as [[st en] w1]; simpl.
  destruct en; simpl; [|reflexivity].
  by destruct (on_NewLogRec D lvl logger template args st w1).
Qed.

Lemma trace_exit_after {W : Type} (D : @Dispatcher Value W) lg (w1 : W) calls :
  trace (exit_after D lg w1 calls) = calls ++ [exit lg 1%Z].
Proof. unfold exit_after. by destruct (on_exit D lg 1%Z w1). Qed.

Lemma exit_comes_last (calls : list (@Call Value)) (lg : LogrRef) (i j : nat) (c c' : @Call Value) :
  filter (fun c => is_exit c = true) calls = [] ->
  (calls ++ [exit lg 1%Z]) !! i = Some c -> is_exit c = false ->
  (calls ++ [exit lg 1%Z]) !! j = Some c' -> is_exit c' = true ->
  (i < j)%nat /\ c' = exit lg 1%Z /\ j = length calls.
Proof.
  intros Hno Hi Hc Hj Hc'.
  assert (Hjge : (length calls <= j)%nat).
  { destruct (decide (j < length calls)%nat) as [Hlt|]; [|lia].
    rewrite lookup_app_l in Hj by done.
    assert (Hin : c' ∈ filter (fun c => is_exit c = true) calls).
    { apply list_elem_of_filter. split; [done|]. by eapply list_elem_of_lookup_2. }
    rewrite Hno in Hin. by apply not_elem_of_nil in Hin. }
  assert (Hilt : (i < length calls)%nat).
  { destruct (decide (i < length calls)%nat) as [|Hge]; [done|].
    rewrite lookup_app_r in Hi by lia.
    destruct (i - length calls)%nat; simpl in Hi; [|done].
    injection Hi as <-. done. }
  rewrite lookup_app_r in Hj by done.
  destruct (j - length calls)%nat eqn:E; simpl in Hj; [|done].
  injection Hj as <-. repeat split; lia.
Qed.

(** *** The claims on the logging calls *)

(** C1. Every logging variant first asks the dispatcher
    [IsLevelEnabled(l)]; with [Enabled] true in the answer it builds one
    record with [NewLogRec], handing it the answer's stack trace flag, and
    passes that record to [enqueue]; with [Enabled] false it makes no
    further call, so no record is built. [Log], [Logf] and [Logln] make
    exactly these calls, the per-level wrappers are those three at the
    wrapper's level, and the fatal and panic wrappers make the same calls
    before anything else. *)
Theorem logging_checks_level_then_enqueues {W : Type} (D : @Dispatcher Value W) (w : W)
    (logger : Sugar) (lvl : Level) (format : string) (args : list Value) :
  (trace (run D (Sugar_Log logger lvl args) w) = log_calls D w logger lvl "" args false /\
   trace (run D (Sugar_Logf logger lvl format args) w)
     = log_calls D w logger lvl format args false /\
   trace (run D (Sugar_Logln logger lvl args) w) = log_calls D w logger lvl "" args true) /\
  (Sugar_Trace Trace logger args = Sugar_Log logger Trace args /\
   Sugar_Debug Debug logger args = Sugar_Log logger Debug args /\
   Sugar_Info Info logger args = Sugar_Log logger Info args /\
   Sugar_Print Info logger args = Sugar_Log logger Info args /\
   Sugar_Warn Warn logger args = Sugar_Log logger Warn args /\
   Sugar_Error Error logger args = Sugar_Log logger Error args /\
   Sugar_Tracef Trace logger format args = Sugar_Logf logger Trace format args /\
   Sugar_Debugf Debug logger format args = Sugar_Logf logger Debug format args /\
   Sugar_Infof Info logger format args = Sugar_Logf logger Info format args /\
   Sugar_Printf Info logger format args = Sugar_Logf logger Info format args /\
   Sugar_Warnf Warn logger format args = Sugar_Logf logger Warn format args /\
   Sugar_Errorf Error logger format args = Sugar_Logf logger Error format args /\
   Sugar_Traceln Trace logger args = Sugar_Logln logger Trace args /\
   Sugar_Debugln Debug logger args = Sugar_Logln logger Debug args /\
   Sugar_Infoln Info logger args = Sugar_Logln logger Info args /\
   Sugar_Println Info logger args = Sugar_Logln logger Info args /\
   Sugar_Warnln Warn logger args = Sugar_Logln logger Warn args /\
   Sugar_Errorln Error logger args = Sugar_Logln logger Error args) /\
  (trace (run D (Sugar_Fatal Fatal logger args) w)
     = log_calls D w logger Fatal "" args false ++ [exit (logr logger) 1%Z] /\
   trace (run D (Sugar_Fatalf Fatal logger format args) w)
     = log_calls D w logger Fatal format args false ++ [exit (logr logger) 1%Z] /\
   trace (run D (Sugar_Fatalln Fatal logger args) w)
     = log_calls D w logger Fatal "" args true ++ [exit (logr logger) 1%Z] /\
   trace (run D (Sugar_Panic Panic Sprint logger args) w)
     = log_calls D w logger Panic "" args false /\
   trace (run D (Sugar_Panicf Panic logger format args) w)
     = log_calls D w logger Panic format args false /\
   trace (run D (Sugar_Panicln Panic logger args) w) = log_calls D w logger Panic "" args true) /\
  (forall (l : Level) (template : string) (nl : bool),
     head (log_calls D w logger l template args nl) = Some (IsLevelEnabled (logr logger) l) /\
     (Enabled (on_IsLevelEnabled D (logr logger) l w).1 = true ->
      log_calls D w logger l template args nl =
        [ IsLevelEnabled (logr logger) l;
          NewLogRec l logger template args
            (StatusStacktrace (on_IsLevelEnabled D (logr logger) l w).1);
          enqueue (logr logger)
            ((if nl then set_newline true else id)
               (on_NewLogRec D l logger template args
                  (StatusStacktrace (on_IsLevelEnabled D (logr logger) l w).1)
                  (on_IsLevelEnabled D (logr logger) l w).2).1) ]) /\
     (Enabled (on_IsLevelEnabled D (logr logger) l w).1 = false ->
      log_calls D w logger l template args nl = [ IsLevelEnabled (logr logger) l ] /\
      filter (fun c => is_NewLogRec c = true) (log_calls D w logger l template args nl) = [] /\
      filter (fun c => is_enqueue c = true) (log_calls D w logger l template args nl) = [])).
Proof.
  split; [|split; [|split]].
  - by rewrite run_Log, run_Logf, run_Logln.
  - repeat split.
  - unfold Sugar_Fatal, Sugar_Fatalf, Sugar_Fatalln, Sugar_Panic, Sugar_Panicf,
      Sugar_Panicln, mbind, Prog_bind.
    rewrite (run_then_exit D w _ _ _ _ (run_Log D w logger Fatal args)).
    rewrite (run_then_exit D w _ _ _ _ (run_Logf D w logger Fatal format args)).
    rewrite (run_then_exit D w _ _ _ _ (run_Logln D w logger Fatal args)).
    rewrite !trace_exit_after, run_bind, run_Log, run_Logf, run_Logln. simpl.
    by rewrite app_nil_r.
  - intros l template nl.
    destruct (log_calls_shape D w logger l template args nl) as (H1 & H2 & H3).
    repeat split; try done.
    + by apply H3.
    + rewrite H3 by done. reflexivity.
    + rewrite H3 by done. reflexivity.
Qed.

(** C4. [Panic] makes the calls of [Log] at the [Panic] level, so the
    record is enqueued when the level is enabled, and then panics with
    [fmt.Sprint] of the arguments: the run ends in that panic with the
    whole logging call behind it, the dispatcher in the state [Log] left
    it in. *)
Theorem Panic_logs_then_panics {W : Type} (D : @Dispatcher Value W) (w : W)
    (logger : Sugar) (args : list Value) :
  run D (Sugar_Panic Panic Sprint logger args) w =
    {| outcome := Panicked (Sprint args);
       world := world (run D (Sugar_Log logger Panic args) w);
       trace := trace (run D (Sugar_Log logger Panic args) w) |} /\
  outcome (run D (Sugar_Log logger Panic args) w) = Returned tt /\
  trace (run D (Sugar_Log logger Panic args) w) = log_calls D w logger Panic "" args false /\
  (Enabled (on_IsLevelEnabled D (logr logger) Panic w).1 = true ->
   trace (run D (Sugar_Panic Panic Sprint logger args) w) =
     [ IsLevelEnabled (logr logger) Panic;
       NewLogRec Panic logger "" args
         (StatusStacktrace (on_IsLevelEnabled D (logr logger) Panic w).1);
       enqueue (logr logger)
         (on_NewLogRec D Panic logger "" args
            (StatusStacktrace (on_IsLevelEnabled D (logr logger) Panic w).1)
            (on_IsLevelEnabled D (logr logger) Panic w).2).1 ]) /\
  (Enabled (on_IsLevelEnabled D (logr logger) Panic w).1 = false ->
   trace (run D (Sugar_Panic Panic Sprint logger args) w) = [ IsLevelEnabled (logr logger) Panic ]).
Proof.
  assert (Hrun : run D (Sugar_Panic Panic Sprint logger args) w =
    {| outcome := Panicked (Sprint args);
       world := world (run D (Sugar_Log logger Panic args) w);
       trace := trace (run D (Sugar_Log logger Panic args) w) |}).
  { unfold Sugar_Panic, mbind, Prog_bind. rewrite run_bind, run_Log. simpl.
    by rewrite app_nil_r. }
  destruct (log_calls_shape D w logger Panic "" args false) as (H1 & H2 & H3).
  rewrite Hrun, run_Log. simpl. repeat split; done.
Qed.

(** C5. [Panicf] and [Panicln] log at the [Panic] level and return: for
    every format and argument list the run ends in a normal return, never
    in a panic, after exactly the calls of [Logf] and [Logln] at that
    level. *)
Theorem Panicf_Panicln_return_normally {W : Type} (D : @Dispatcher Value W) (w : W)
    (logger : Sugar) (format : string) (args : list Value) :
  outcome (run D (Sugar_Panicf Panic logger format args) w) = Returned tt /\
  outcome (run D (Sugar_Panicln Panic logger args) w) = Returned tt /\
  trace (run D (Sugar_Panicf Panic logger format args) w)
    = log_calls D w logger Panic format args false /\
  trace (run D (Sugar_Panicln Panic logger args) w) = log_calls D w logger Panic "" args true /\
  (forall v, outcome (run D (Sugar_Panicf Panic logger format args) w) <> Panicked v) /\
  (forall v, outcome (run D (Sugar_Panicln Panic logger args) w) <> Panicked v).
Proof.
  unfold Sugar_Panicf, Sugar_Panicln. rewrite run_Logf, run_Logln. simpl.
  repeat split; discriminate.
Qed.

(** C6. [Fatal], [Fatalf] and [Fatalln] call the exit hook once, with
    status 1, as the last call of the run: it is handed the dispatcher
    state the logging call left, and every other call of the run, the
    enqueue of the record among them, comes before it. *)
Theorem Fatal_exits_after_logging {W : Type} (D : @Dispatcher Value W) (w : W)
    (logger : Sugar) (format : string) (args : list Value) :
  (run D (Sugar_Fatal Fatal logger args) w =
     exit_after D (logr logger) (log_world D w logger Fatal "" args false)
       (log_calls D w logger Fatal "" args false) /\
   run D (Sugar_Fatalf Fatal logger format args) w =
     exit_after D (logr logger) (log_world D w logger Fatal format args false)
       (log_calls D w logger Fatal format args false) /\
   run D (Sugar_Fatalln Fatal logger args) w =
     exit_after D (logr logger) (log_world D w logger Fatal "" args true)
       (log_calls D w logger Fatal "" args true)) /\
  (forall (p : @Prog Value unit),
     p = Sugar_Fatal Fatal logger args \/ p = Sugar_Fatalf Fatal logger format args \/
     p = Sugar_Fatalln Fatal logger args ->
     filter (fun c => is_exit c = true) (trace (run D p w)) = [exit (logr logger) 1%Z] /\
     last (trace (run D p w)) = Some (exit (logr logger) 1%Z) /\
     forall (i j : nat) (c c' : @Call Value),
       trace (run D p w) !! i = Some c -> is_exit c = false ->
       trace (run D p w) !! j = Some c' -> is_exit c' = true ->
       (i < j)%nat /\ c' = exit (logr logger) 1%Z).
Proof.
  assert (H1 := run_then_exit D w _ (logr logger) _ _ (run_Log D w logger Fatal args)).
  assert (H2 := run_then_exit D w _ (logr logger) _ _ (run_Logf D w logger Fatal format args)).
  assert (H3 := run_then_exit D w _ (logr logger) _ _ (run_Logln D w logger Fatal args)).
  split; [by repeat split|].
  assert (Hgen : forall w1 template nl,
    let r := exit_after D (logr logger) w1 (log_calls D w logger Fatal template args nl) in
    filter (fun c => is_exit c = true) (trace r) = [exit (logr logger) 1%Z] /\
    last (trace r) = Some (exit (logr logger) 1%Z) /\
    forall (i j : nat) (c c' : @Call Value),
      trace r !! i = Some c -> is_exit c = false ->
      trace r !! j = Some c' -> is_exit c' = true ->
      (i < j)%nat /\ c' = exit (logr logger) 1%Z).
  { intros w1 template nl r. unfold r. rewrite trace_exit_after.
    pose proof (log_calls_no_exit D w logger Fatal template args nl) as Hno.
    split; [|split].
    - by rewrite filter_app, Hno.
    - by rewrite last_snoc.
    - intros i j c c' Hi Hc Hj Hc'.
      destruct (exit_comes_last _ _ _ _ _ _ Hno Hi Hc Hj Hc') as (Hlt & Heq & _).
      by split. }
  intros p [-> | [-> | ->]].
  - unfold Sugar_Fatal, mbind, Prog_bind. rewrite H1. apply Hgen.
  - unfold Sugar_Fatalf, mbind, Prog_bind. rewrite H2. apply Hgen.
  - unfold Sugar_Fatalln, mbind, Prog_bind. rewrite H3. apply Hgen.
Qed.

End FrontendFacts.

Section DispatchFacts.
Context {Value : Type}.
Variable MaxLevelID : LevelID.

(** *** Level checks of the modelled dispatcher *)

Lemma Evaluate_enabled (f : CustomFilter) (lvl : Level) :
  ev_enabled (CustomFilter_Evaluate MaxLevelID f lvl) = true ->
  is_Some (f !! ID lvl) /\ ID lvl <= MaxLevelID.
Proof.
  unfold CustomFilter_Evaluate. destruct (f !! ID lvl) as [reg|]; [|done].
  destruct (MaxLevelID <? ID lvl) eqn:E; [done|].
  apply N.ltb_ge in E. intros _. split; [by eexists|done].
Qed.

Lemma Evaluate_unregistered (f : CustomFilter) (lvl : Level) :
  f !! ID lvl = None ->
  CustomFilter_Evaluate MaxLevelID f lvl =
    {| ev_enabled := false; ev_stacktrace := false; ev_error := None |}.
Proof. intros Hn. unfold CustomFilter_Evaluate. by rewrite Hn. Qed.

Lemma Evaluate_invalid (f : CustomFilter) (lvl : Level) :
  MaxLevelID < ID lvl -> is_Some (f !! ID lvl) ->
  CustomFilter_Evaluate MaxLevelID f lvl =
    {| ev_enabled := false; ev_stacktrace := false;
       ev_error := Some (InvalidLevelID (ID lvl)) |}.
Proof.
  intros Hgt [reg Hreg]. unfold CustomFilter_Evaluate. rewrite Hreg.
  apply N.ltb_lt in Hgt. by rewrite Hgt.
Qed.

Lemma Evaluate_registered (f : CustomFilter) (lvl reg : Level) :
  ID lvl <= MaxLevelID -> f !! ID lvl = Some reg ->
  CustomFilter_Evaluate MaxLevelID f lvl =
    {| ev_enabled := true; ev_stacktrace := Stacktrace reg; ev_error := None |}.
Proof.
  intros Hle Hreg. unfold CustomFilter_Evaluate. rewrite Hreg.
  apply N.ltb_ge in Hle. by rewrite Hle.
Qed.

(** No target has the level registered: nothing is enabled, nothing is
    reported. *)
Lemma IsLevelEnabled_unregistered (lgr : @LogrState Value) (lvl : Level) :
  Forall (fun t => filter_of t !! ID lvl = None) (targets lgr) ->
  Logr_IsLevelEnabled MaxLevelID lgr lvl
    = ({| StatusStacktrace := false; Enabled := false |}, lgr).
Proof.
  intros Hall. unfold Logr_IsLevelEnabled.
  assert (Hevs : map (fun t => CustomFilter_Evaluate MaxLevelID (filter_of t) lvl)
                      (targets lgr)
                 = map (fun _ => {| ev_enabled := false; ev_stacktrace := false;
                                    ev_error := None |}) (targets lgr)).
  { induction Hall as [|t ts Ht _ IH]; simpl; [done|].
    by rewrite IH, Evaluate_unregistered. }
  rewrite Hevs. clear Hevs Hall.
  induction (targets lgr) as [|t ts IH]; simpl in *; [done|]. exact IH.
Qed.

(** The level's id exceeds [MaxLevelID]: nothing is enabled, and with
    the level registered in some target the hook is called once. *)
Lemma IsLevelEnabled_invalid (lgr : @LogrState Value) (lvl : Level) :
  MaxLevelID < ID lvl ->
  Exists (fun t => is_Some (filter_of t !! ID lvl)) (targets lgr) ->
  Logr_IsLevelEnabled MaxLevelID lgr lvl =
    ({| StatusStacktrace := false; Enabled := false |},
     ReportError (InvalidLevelID (ID lvl)) lgr).
Proof.
  intros Hgt Hex. unfold Logr_IsLevelEnabled.
  set (evs := map (fun t => CustomFilter_Evaluate MaxLevelID (filter_of t) lvl) (targets lgr)).
  assert (Hoff : existsb ev_enabled evs = false /\
                 existsb (fun e => ev_enabled e && ev_stacktrace e) evs = false /\
                 forall err, err ∈ omap ev_error evs -> err = InvalidLevelID (ID lvl)).
  { unfold evs. clear Hex evs.
    induction (targets lgr) as [|t ts (IH1 & IH2 & IH3)]; simpl.
    - repeat split. intros err Herr. by apply not_elem_of_nil in Herr.
    - destruct (filter_of t !! ID lvl) as [reg|] eqn:Hreg.
      + rewrite (Evaluate_invalid _ _ Hgt) by (by eexists). simpl.
        repeat split; try done.
        intros err [->|Herr]%elem_of_cons; [done|by apply IH3].
      + rewrite (Evaluate_unregistered _ _ Hreg). simpl. done. }
  destruct Hoff as (H1 & H2 & H3). rewrite H1, H2.
  assert (Hne : omap ev_error evs <> []).
  { unfold evs. clear H1 H2 H3 evs.
    induction Hex as [t ts Ht|t ts _ IH]; simpl.
    - by rewrite (Evaluate_invalid _ _ Hgt Ht).
    - destruct (ev_error (CustomFilter_Evaluate MaxLevelID (filter_of t) lvl)); [done|exact IH]. }
  destruct (omap ev_error evs) as [|err errs]; [done|].
  rewrite (H3 err) by apply list_elem_of_here. done.
Qed.

End DispatchFacts.

(** ** The claims on custom levels *)
Section DispatchClaims.
Context {Value : Type}.
Variable MaxLevelID : LevelID.
Variables (Debug Error : Level).
Implicit Types (lgr : @LogrState Value) (logger : Sugar) (args : list Value).

Lemma login_logout_filter_lookup (i : N) :
  login_logout_filter !! i =
    if decide (i = 101) then Some LogoutLevel
    else if decide (i = 100) then Some LoginLevel else None.
Proof.
  unfold login_logout_filter, CustomFilter_Add. cbn [foldl].
  change (ID LogoutLevel) with 101. change (ID LoginLevel) with 100.
  rewrite lookup_insert. destruct (decide (101 = i)) as [<-|Hne].
  - by rewrite decide_True.
  - rewrite decide_False by done. rewrite lookup_insert.
    destruct (decide (100 = i)) as [<-|Hne'].
    + by rewrite decide_True.
    + by rewrite decide_False by done.
Qed.

(** C3. A level whose id exceeds [MaxLevelID] is registered by [Add]
    like any other, with no error. Every log call at such a level, once
    some target has it registered, enables no target, builds and enqueues
    no record, and calls the error-reporting hook exactly once; the
    targets are as before, so the next call does the same. *)
Theorem invalid_level_id_reported_once lgr logger (lvl : Level) (format : string) args
    (f : CustomFilter) :
  MaxLevelID < ID lvl ->
  Exists (fun t => is_Some (filter_of t !! ID lvl)) (targets lgr) ->
  CustomFilter_Add [lvl] f !! ID lvl = Some lvl /\
  Forall (fun t => ev_enabled (CustomFilter_Evaluate MaxLevelID (filter_of t) lvl) = false)
         (targets lgr) /\
  (forall p : Prog unit,
     p = Sugar_Log logger lvl args \/ p = Sugar_Logf logger lvl format args \/
     p = Sugar_Logln logger lvl args ->
     run (SpecDispatcher MaxLevelID) p lgr =
       {| outcome := Returned tt;
          world := ReportError (InvalidLevelID (ID lvl)) lgr;
          trace := [ IsLevelEnabled (logr logger) lvl ] |} /\
     reported (world (run (SpecDispatcher MaxLevelID) p lgr))
       = reported lgr ++ [InvalidLevelID (ID lvl)] /\
     length (reported (world (run (SpecDispatcher MaxLevelID) p lgr)))
       = S (length (reported lgr)) /\
     targets (world (run (SpecDispatcher MaxLevelID) p lgr)) = targets lgr).
Proof.
  intros Hgt Hex. split; [|split].
  - unfold CustomFilter_Add. simpl. apply lookup_insert_eq.
  - apply Forall_forall. intros t _.
    destruct (ev_enabled (CustomFilter_Evaluate MaxLevelID (filter_of t) lvl)) eqn:E; [|done].
    apply Evaluate_enabled in E as [_ Hle]. lia.
  - assert (Hrun : forall template nl,
      log_world (SpecDispatcher MaxLevelID) lgr logger lvl template args nl
        = ReportError (InvalidLevelID (ID lvl)) lgr /\
      log_calls (SpecDispatcher MaxLevelID) lgr logger lvl template args nl
        = [ IsLevelEnabled (logr logger) lvl ]).
    { intros template nl. unfold log_world, log_calls. simpl.
      by rewrite (IsLevelEnabled_invalid MaxLevelID lgr lvl Hgt Hex). }
    intros p [-> | [-> | ->]].
    + rewrite run_Log. destruct (Hrun ""%string false) as [-> ->]. simpl.
      by rewrite length_app, Nat.add_1_r.
    + rewrite run_Logf. destruct (Hrun format false) as [-> ->]. simpl.
      by rewrite length_app, Nat.add_1_r.
    + rewrite run_Logln. destruct (Hrun ""%string true) as [-> ->]. simpl.
      by rewrite length_app, Nat.add_1_r.
Qed.

(** C7. With every target filtering on exactly [LoginLevel] (id 100)
    and [LogoutLevel] (id 101), a level is enabled only if its id is 100 or
    101; a log call at any other level makes the level check and nothing
    else, leaving the dispatcher, its queues included, as it was. [Error]
    and [Debug], whose ids lie in the reserved range below, are such
    levels. A call at one of the two registered levels puts its record on
    the queue of a target with room. *)
Theorem custom_filter_enables_only_registered lgr logger args :
  Forall (fun t => filter_of t = login_logout_filter) (targets lgr) ->
  ID Error < 100 -> ID Debug < 100 ->
  (forall lvl : Level,
     Enabled (Logr_IsLevelEnabled MaxLevelID lgr lvl).1 = true ->
     ID lvl = 100 \/ ID lvl = 101) /\
  (forall lvl : Level, ID lvl <> 100 -> ID lvl <> 101 ->
     run (SpecDispatcher MaxLevelID) (Sugar_Log logger lvl args) lgr =
       {| outcome := Returned tt; world := lgr;
          trace := [ IsLevelEnabled (logr logger) lvl ] |}) /\
  run (SpecDispatcher MaxLevelID) (Sugar_Log logger Error args) lgr =
    {| outcome := Returned tt; world := lgr;
       trace := [ IsLevelEnabled (logr logger) Error ] |} /\
  run (SpecDispatcher MaxLevelID) (Sugar_Debug Debug logger args) lgr =
    {| outcome := Returned tt; world := lgr;
       trace := [ IsLevelEnabled (logr logger) Debug ] |} /\
  (101 <= MaxLevelID ->
   forall (t : Target) (lvl : Level),
     targets lgr = [t] -> (length (queue t) < capacity t)%nat ->
     lvl = LoginLevel \/ lvl = LogoutLevel ->
     Enabled (Logr_IsLevelEnabled MaxLevelID lgr lvl).1 = true /\
     targets (world (run (SpecDispatcher MaxLevelID) (Sugar_Log logger lvl args) lgr)) =
       [ {| filter_of := filter_of t; capacity := capacity t;
            queue := queue t ++ [(Logr_NewLogRec lvl logger "" args false lgr).1] |} ]).
Proof.
  intros Hall HE HD.
  assert (Hunreg : forall lvl : Level, ID lvl <> 100 -> ID lvl <> 101 ->
            Logr_IsLevelEnabled MaxLevelID lgr lvl
              = ({| StatusStacktrace := false; Enabled := false |}, lgr)).
  { intros lvl H100 H101. apply IsLevelEnabled_unregistered.
    eapply Forall_impl; [exact Hall|]. intros t ->. simpl.
    rewrite login_logout_filter_lookup. by rewrite !decide_False. }
  assert (Hrun : forall lvl : Level, ID lvl <> 100 -> ID lvl <> 101 ->
     run (SpecDispatcher MaxLevelID) (Sugar_Log logger lvl args) lgr =
       {| outcome := Returned tt; world := lgr;
          trace := [ IsLevelEnabled (logr logger) lvl ] |}).
  { intros lvl H100 H101. rewrite run_Log. unfold log_world, log_calls. simpl.
    by rewrite (Hunreg lvl H100 H101). }
  split; [|split; [|split; [|split]]].
  - intros lvl Hen.
    destruct (decide (ID lvl = 100)) as [|H100]; [by left|].
    destruct (decide (ID lvl = 101)) as [|H101]; [by right|].
    rewrite (Hunreg lvl H100 H101) in Hen. done.
  - exact Hrun.
  - apply Hrun; lia.
  - unfold Sugar_Debug. apply Hrun; lia.
  - intros Hmax t lvl Ht Hroom Hlvl.
    assert (Hreg : filter_of t !! ID lvl = Some lvl /\ ID lvl <= MaxLevelID
                   /\ Stacktrace lvl = false).
    { rewrite Ht in Hall. inversion Hall as [|? ? Hf _]; subst.
      rewrite Hf, login_logout_filter_lookup.
      destruct Hlvl as [-> | ->]; simpl; repeat split; try done; lia. }
    destruct Hreg as (Hreg & Hle & Hst).
    assert (Hev := Evaluate_registered MaxLevelID (filter_of t) lvl lvl Hle Hreg).
    assert (Hchk : Logr_IsLevelEnabled MaxLevelID lgr lvl
                   = ({| StatusStacktrace := false; Enabled := true |}, lgr)).
    { unfold Logr_IsLevelEnabled. rewrite Ht. simpl. rewrite Hev, Hst. done. }
    rewrite run_Log. unfold log_world. simpl. rewrite Hchk. simpl.
    split; [done|].
    unfold Logr_enqueue. simpl. rewrite Ht. simpl.
    unfold offer_step, Target_Offer. simpl. rewrite Hev. simpl.
    apply Nat.ltb_lt in Hroom. by rewrite Hroom.
Qed.

End DispatchClaims.

Lemma heap0_valid_1 : valid heap0 (Some 1%positive).
Proof. apply elem_of_dom. exists {[ "user"%string := 7%nat ]}. reflexivity. Defined.

Lemma heap0_valid_2 : valid heap0 (Some 2%positive).
Proof. apply elem_of_dom. exists {[ "role"%string := 3%nat ]}. reflexivity. Defined.

Lemma WithFields_overlay_parent_unchanged_witness :
  deref (Sugar_WithFields parent0 (Some 2%positive) heap0).2 (fields parent0)
    = deref heap0 (fields parent0).
Proof.
  exact (proj1 (proj2 (proj2 (proj1
    (WithFields_overlay_parent_unchanged parent0 (Some 2%positive) heap0
       heap0_valid_2 heap0_valid_1))))).
Defined.

Lemma heap0_parent_has_fields : len heap0 (fields parent0) <> 0%nat.
Proof. vm_compute. discriminate. Defined.

Lemma WithFields_aliases_callers_map_witness :
  fields (Sugar_WithFields parent0 (Some 2%positive) heap0).1 = Some (fresh (dom heap0)).
Proof.
  exact (proj1 (proj2
    (WithFields_aliases_callers_map parent0 (Some 2%positive) heap0 heap0_valid_2)
    heap0_parent_has_fields)).
Defined.

Lemma test_BadLevel_registered :
  Exists (fun t : @Target string => is_Some (filter_of t !! ID (BadLevel 255)))
         (targets (test_lgr (CustomFilter_Add [BadLevel 255] ∅))).
Proof. apply Exists_cons_hd. exists (BadLevel 255). reflexivity. Defined.

(** TestLevelIDTooLarge: one call at [BadLevel], one call of the hook. *)
Lemma invalid_level_id_reported_once_witness :
  length (reported (world (run (SpecDispatcher 255)
            (Sugar_Log test_logger (BadLevel 255) ["this item will trigger OnLoggerError"%string])
            (test_lgr (CustomFilter_Add [BadLevel 255] ∅))))) = 1%nat.
Proof.
  exact (proj1 (proj2 (proj2 (proj2 (proj2
    (invalid_level_id_reported_once 255 (test_lgr (CustomFilter_Add [BadLevel 255] ∅))
       test_logger (BadLevel 255) ""%string
       ["this item will trigger OnLoggerError"%string] ∅
       eq_refl test_BadLevel_registered)) _ (or_introl eq_refl))))).
Defined.

Lemma test_login_logout_targets :
  Forall (fun t : @Target string => filter_of t = login_logout_filter)
         (targets (test_lgr login_logout_filter)).
Proof. apply Forall_cons. split; [reflexivity|apply Forall_nil_2]. Defined.

(** TestCustomLevel: the call at [Error] reaches no queue. *)
Lemma custom_filter_enables_only_registered_witness :
  run (SpecDispatcher 255)
      (Sugar_Log test_logger test_Error ["XXX - won't be logged"%string])
      (test_lgr login_logout_filter) =
    {| outcome := Returned tt; world := test_lgr login_logout_filter;
       trace := [ IsLevelEnabled 1%positive test_Error ] |}.
Proof.
  exact (proj1 (proj2 (proj2
    (custom_filter_enables_only_registered 255 test_Debug test_Error
       (test_lgr login_logout_filter) test_logger ["XXX - won't be logged"%string]
       test_login_logout_targets eq_refl eq_refl)))).
Defined.

(** ** Chains of derived loggers *)
Section FieldChains.
Context {Value : Type}.
Implicit Types (h : gmap positive (gmap string Value)) (p : Sugar) (m : Fields).

(** X3. [p.WithFields(m1).WithFields(m2)]: the grandchild holds [p]'s fields
    overlaid with [m1] and then with [m2], the later map winning; the
    child in between and [p] keep the field sets they had, whichever of
    the two calls copied. *)
Theorem WithFields_chain p m1 m2 h :
  valid h m1 -> valid h m2 -> valid h (fields p) ->
  let c1 := Sugar_WithFields p m1 h in
  let c2 := Sugar_WithFields c1.1 m2 c1.2 in
  logr c2.1 = logr p /\
  deref c2.2 (fields c2.1) = deref h m2 ∪ (deref h m1 ∪ deref h (fields p)) /\
  deref c2.2 (fields c1.1) = deref h m1 ∪ deref h (fields p) /\
  deref c2.2 (fields p) = deref h (fields p) /\
  deref c2.2 m1 = deref h m1 /\ deref c2.2 m2 = deref h m2.
Proof.
  intros Hm1 Hm2 Hp c1 c2.
  destruct (WithFields_spec p m1 h Hm1) as (E1 & E2 & E3 & E4 & E5).
  fold c1 in E1, E2, E3, E4, E5.
  assert (Hm2' : valid c1.2 m2) by (by eapply valid_frame).
  destruct (WithFields_spec c1.1 m2 c1.2 Hm2') as (F1 & F2 & F3 & F4 & F5).
  fold c2 in F1, F2, F3, F4, F5.
  assert (Hfr : forall l, l ∈ dom h -> c2.2 !! l = h !! l).
  { intros l Hl. rewrite F3 by (by apply E4). by apply E3. }
  repeat split.
  - by rewrite F1.
  - by rewrite F2, E2, (deref_frame h c1.2 m2 Hm2 E3).
  - by rewrite (deref_frame c1.2 c2.2 _ E5 F3).
  - by apply deref_frame.
  - by apply deref_frame.
  - by apply deref_frame.
Qed.

(** X4. [p.WithField(k1, v1).WithField(k2, v2)]: the later call wins on one
    key, and with two different keys the two orders of the calls give the
    same field set. *)
Theorem WithField_chain p (k1 k2 : string) (v1 v2 : Value) h :
  valid h (fields p) ->
  let c1 := Sugar_WithField p k1 v1 h in
  let c2 := Sugar_WithField c1.1 k2 v2 c1.2 in
  let d1 := Sugar_WithField p k2 v2 h in
  let d2 := Sugar_WithField d1.1 k1 v1 d1.2 in
  deref c2.2 (fields c2.1) = <[k2 := v2]> (<[k1 := v1]> (deref h (fields p))) /\
  deref c2.2 (fields c2.1) !! k2 = Some v2 /\
  (k1 = k2 -> deref c2.2 (fields c2.1) = <[k2 := v2]> (deref h (fields p))) /\
  (k1 <> k2 ->
   deref c2.2 (fields c2.1) !! k1 = Some v1 /\
   deref d2.2 (fields d2.1) = deref c2.2 (fields c2.1)).
Proof.
  intros Hp c1 c2 d1 d2.
  destruct (WithField_spec p k1 v1 h Hp) as (E1 & E2 & E3 & E4 & E5).
  fold c1 in E1, E2, E3, E4, E5.
  destruct (WithField_spec c1.1 k2 v2 c1.2 E5) as (F1 & F2 & F3 & F4 & F5).
  fold c2 in F1, F2, F3, F4, F5.
  destruct (WithField_spec p k2 v2 h Hp) as (G1 & G2 & G3 & G4 & G5).
  fold d1 in G1, G2, G3, G4, G5.
  destruct (WithField_spec d1.1 k1 v1 d1.2 G5) as (H1 & H2 & H3 & H4 & H5).
  fold d2 in H1, H2, H3, H4, H5.
  rewrite F2, E2, H2, G2. repeat split.
  - apply lookup_insert_eq.
  - intros ->. apply insert_insert_eq.
  - rewrite lookup_insert_ne by done. apply lookup_insert_eq.
  - by apply insert_insert_ne.
Qed.

(** X5. The child of [WithFields] has exactly the keys of [p] and of [m]. So
    its size is at most [len(fields)+oldLen], the capacity the source asks
    [make] for, and it is that sum when no key is in both. *)
Theorem WithFields_keys_and_size p m h :
  valid h m ->
  dom (deref (Sugar_WithFields p m h).2 (fields (Sugar_WithFields p m h).1))
    = dom (deref h m) ∪ dom (deref h (fields p)) /\
  (len (Sugar_WithFields p m h).2 (fields (Sugar_WithFields p m h).1)
     <= len h m + len h (fields p))%nat /\
  (len h m <= len (Sugar_WithFields p m h).2 (fields (Sugar_WithFields p m h).1))%nat /\
  (len h (fields p)
     <= len (Sugar_WithFields p m h).2 (fields (Sugar_WithFields p m h).1))%nat /\
  (deref h m ##ₘ deref h (fields p) ->
   len (Sugar_WithFields p m h).2 (fields (Sugar_WithFields p m h).1)
     = (len h m + len h (fields p))%nat).
Proof.
  intros Hm. destruct (WithFields_spec p m h Hm) as (_ & E2 & _).
  unfold len. rewrite E2, dom_union_L.
  rewrite <- !size_dom, dom_union_L.
  split; [done|]. split; [|split; [|split]].
  - rewrite size_union_alt.
    assert (Hsz : (size (dom (deref h (fields p)) ∖ dom (deref h m))
                   <= size (dom (deref h (fields p))))%nat); [|lia].
    apply subseteq_size, subseteq_difference_l. done.
  - apply subseteq_size, union_subseteq_l.
  - apply subseteq_size, union_subseteq_r.
  - intros Hdisj. apply size_union. by apply map_disjoint_dom.
Qed.

End FieldChains.

Lemma WithFields_chain_witness :
  deref (Sugar_WithFields (Sugar_WithFields parent0 (Some 2%positive) heap0).1 (Some 1%positive)
           (Sugar_WithFields parent0 (Some 2%positive) heap0).2).2
        (fields parent0)
  = deref heap0 (fields parent0).
Proof.
  exact (proj1 (proj2 (proj2 (proj2
    (WithFields_chain parent0 (Some 2%positive) (Some 1%positive) heap0
       heap0_valid_2 heap0_valid_1 heap0_valid_1))))).
Defined.

Lemma WithField_chain_witness :
  deref (Sugar_WithField (Sugar_WithField parent0 "a" 1%nat heap0).1 "a" 2%nat
           (Sugar_WithField parent0 "a" 1%nat heap0).2).2
        (fields (Sugar_WithField (Sugar_WithField parent0 "a" 1%nat heap0).1 "a" 2%nat
           (Sugar_WithField parent0 "a" 1%nat heap0).2).1) !! "a"%string
  = Some 2%nat.
Proof.
  exact (proj1 (proj2 (WithField_chain parent0 "a" "a" 1%nat 2%nat heap0 heap0_valid_1))).
Defined.

Lemma WithFields_keys_and_size_witness :
  (len (Sugar_WithFields parent0 (Some 2%positive) heap0).2
       (fields (Sugar_WithFields parent0 (Some 2%positive) heap0).1)
   <= len heap0 (Some 2%positive) + len heap0 (fields parent0))%nat.
Proof.
  exact (proj1 (proj2
    (WithFields_keys_and_size parent0 (Some 2%positive) heap0 heap0_valid_2))).
Defined.

(** ** The methods that do not escalate *)
Section PlainMethods.
Context {Value : Type}.
Variables (Trace Debug Info Warn Error Fatal Panic : Level).
Implicit Types (logger : Sugar) (lvl : Level) (args : list Value) (format template : string).

Lemma log_calls_counts {W : Type} (D : @Dispatcher Value W) (w : W)
    logger lvl template args nl :
  (length (filter (fun c => is_enqueue c = true) (log_calls D w logger lvl template args nl))
     <= 1)%nat /\
  length (filter (fun c => is_NewLogRec c = true) (log_calls D w logger lvl template args nl))
    = length (filter (fun c => is_enqueue c = true)
                (log_calls D w logger lvl template args nl)).
Proof.
  unfold log_calls.
  destruct (on_IsLevelEnabled D (logr logger) lvl w) as [[st en] w1]; simpl.
  destruct en; simpl; [|split; [lia|done]].
  destruct (on_NewLogRec D lvl logger template args st w1); simpl. split; [lia|done].
Qed.

(** X6. Every logging method other than [Fatal], [Fatalf], [Fatalln] and
    [Panic] returns to its caller whatever the dispatcher answers: it never
    calls the exit hook and never panics, and it builds and enqueues at
    most one record, one for one. [Panicf] and [Panicln] are among them. *)
Theorem plain_methods_return_and_never_exit {W : Type} (D : @Dispatcher Value W) (w : W)
    logger lvl format args (p : @Prog Value unit) :
  p ∈ [ Sugar_Log logger lvl args; Sugar_Trace Trace logger args;
        Sugar_Debug Debug logger args; Sugar_Print Info logger args;
        Sugar_Info Info logger args; Sugar_Warn Warn logger args;
        Sugar_Error Error logger args;
        Sugar_Logf logger lvl format args; Sugar_Tracef Trace logger format args;
        Sugar_Debugf Debug logger format args; Sugar_Infof Info logger format args;
        Sugar_Printf Info logger format args; Sugar_Warnf Warn logger format args;
        Sugar_Errorf Error logger format args; Sugar_Panicf Panic logger format args;
        Sugar_Logln logger lvl args; Sugar_Traceln Trace logger args;
        Sugar_Debugln Debug logger args; Sugar_Infoln Info logger args;
        Sugar_Println Info logger args; Sugar_Warnln Warn logger args;
        Sugar_Errorln Error logger args; Sugar_Panicln Panic logger args ] ->
  outcome (run D p w) = Returned tt /\
  filter (fun c => is_exit c = true) (trace (run D p w)) = [] /\
  (length (filter (fun c => is_enqueue c = true) (trace (run D p w))) <= 1)%nat /\
  length (filter (fun c => is_NewLogRec c = true) (trace (run D p w)))
    = length (filter (fun c => is_enqueue c = true) (trace (run D p w))).
Proof.
  intros Hin.
  assert (Hgen : forall l template nl,
    run D p w = {| outcome := Returned tt; world := log_world D w logger l template args nl;
                   trace := log_calls D w logger l template args nl |} ->
    outcome (run D p w) = Returned tt /\
    filter (fun c => is_exit c = true) (trace (run D p w)) = [] /\
    (length (filter (fun c => is_enqueue c = true) (trace (run D p w))) <= 1)%nat /\
    length (filter (fun c => is_NewLogRec c = true) (trace (run D p w)))
      = length (filter (fun c => is_enqueue c = true) (trace (run D p w)))).
  { intros l template nl ->. simpl.
    destruct (log_calls_counts D w logger l template args nl) as [H1 H2].
    repeat split; try done. apply log_calls_no_exit. }
  repeat (apply elem_of_cons in Hin as [-> | Hin]);
    try (by apply elem_of_nil in Hin);
    first [ eapply Hgen, run_Log | eapply Hgen, run_Logf | eapply Hgen, run_Logln ].
Qed.

(** X7. The record that [Logln] enqueues is the one [NewLogRec] returned with
    [newline] set and nothing else changed; [Log] and [Logf] enqueue the
    record as [NewLogRec] returned it. *)
Theorem Logln_sets_newline {W : Type} (D : @Dispatcher Value W) (w : W)
    logger lvl format args (lg : LogrRef) (rec : @LogRec Value) :
  (enqueue lg rec ∈ trace (run D (Sugar_Logln logger lvl args) w) ->
   lg = logr logger /\
   newline rec = true /\
   rec = set_newline true
           (on_NewLogRec D lvl logger "" args
              (StatusStacktrace (on_IsLevelEnabled D (logr logger) lvl w).1)
              (on_IsLevelEnabled D (logr logger) lvl w).2).1 /\
   rec_level rec
     = rec_level (on_NewLogRec D lvl logger "" args
              (StatusStacktrace (on_IsLevelEnabled D (logr logger) lvl w).1)
              (on_IsLevelEnabled D (logr logger) lvl w).2).1 /\
   rec_args rec
     = rec_args (on_NewLogRec D lvl logger "" args
              (StatusStacktrace (on_IsLevelEnabled D (logr logger) lvl w).1)
              (on_IsLevelEnabled D (logr logger) lvl w).2).1 /\
   rec_stack rec
     = rec_stack (on_NewLogRec D lvl logger "" args
              (StatusStacktrace (on_IsLevelEnabled D (logr logger) lvl w).1)
              (on_IsLevelEnabled D (logr logger) lvl w).2).1) /\
  (enqueue lg rec ∈ trace (run D (Sugar_Log logger lvl args) w) ->
   rec = (on_NewLogRec D lvl logger "" args
            (StatusStacktrace (on_IsLevelEnabled D (logr logger) lvl w).1)
            (on_IsLevelEnabled D (logr logger) lvl w).2).1) /\
  (enqueue lg rec ∈ trace (run D (Sugar_Logf logger lvl format args) w) ->
   rec = (on_NewLogRec D lvl logger format args
            (StatusStacktrace (on_IsLevelEnabled D (logr logger) lvl w).1)
            (on_IsLevelEnabled D (logr logger) lvl w).2).1).
Proof.
  assert (Hin : forall template nl,
    enqueue lg rec ∈ log_calls D w logger lvl template args nl ->
    lg = logr logger /\
    rec = (if nl then set_newline true else id)
            (on_NewLogRec D lvl logger template args
               (StatusStacktrace (on_IsLevelEnabled D (logr logger) lvl w).1)
               (on_IsLevelEnabled D (logr logger) lvl w).2).1).
  { intros template nl.
    destruct (log_calls_shape D w logger lvl template args nl) as (_ & H2 & H3).
    destruct (Enabled (on_IsLevelEnabled D (logr logger) lvl w).1).
    - rewrite H2 by done. rewrite !elem_of_cons, elem_of_nil.
      intros [H|[H|[H|[]]]]; try discriminate H. by injection H as -> ->.
    - rewrite H3 by done. rewrite elem_of_cons, elem_of_nil.
      intros [H|[]]. discriminate H. }
  rewrite run_Log, run_Logf, run_Logln. simpl. split; [|split].
  - intros H. destruct (Hin _ _ H) as [-> ->]. done.
  - intros H. by destruct (Hin _ _ H) as [_ ->].
  - intros H. by destruct (Hin _ _ H) as [_ ->].
Qed.

End PlainMethods.

Lemma plain_methods_return_and_never_exit_witness :
  outcome (run (SpecDispatcher 255)
             (Sugar_Log test_logger LoginLevel ["this item will get logged"%string])
             (test_lgr login_logout_filter)) = Returned tt.
Proof.
  exact (proj1
    (plain_methods_return_and_never_exit test_Error test_Error test_Error test_Error
       test_Error test_Error (SpecDispatcher 255) (test_lgr login_logout_filter)
       test_logger LoginLevel ""%string ["this item will get logged"%string] _
       (list_elem_of_here _ _))).
Defined.

End LogrFacts.

(** ** Package format: the sorter, the formatter's frame, the keys *)
Module FormatFacts.
Import Format.

(** *** [prefixCollision] *)

Example prefixCollision_msg : prefixCollision defaultJSON "msg" = "_msg"%string.
Proof. reflexivity. Qed.

Example prefixCollision_user : prefixCollision defaultJSON "user" = "user"%string.
Proof. reflexivity. Qed.

Example prefixCollision_twice :
  prefixCollision (with_keys defaultJSON "timestamp" "_msg" "msg" "stacktrace") "msg"
  = "__msg"%string.
Proof. reflexivity. Qed.

(** The function is total, and its result collides with none of the
    four reserved names. *)
Lemma prefixCollision_not_reserved (j : JSON) (key : string) :
  reserved j (prefixCollision j key) = false.
Proof.
  funelim (prefixCollision j key).
  - assumption.
  - assumption.
Qed.

(** The result is the key behind some underscores, each of them put in
    front of a key that collided. *)
Lemma prefixCollision_underscores (j : JSON) (key : string) :
  exists n : nat,
    prefixCollision j key = underscores n key /\
    forall m : nat, (m < n)%nat -> reserved j (underscores m key) = true.
Proof.
  funelim (prefixCollision j key).
  - destruct H as (n & Hn & Hres). exists (S n). split; [exact Hn|].
    intros [|m] Hm; simpl; [assumption|]. apply Hres. lia.
  - exists 0%nat. split; [reflexivity|]. intros m Hm. lia.
Qed.

Lemma prefixCollision_fixed (j : JSON) (key : string) :
  reserved j key = false -> prefixCollision j key = key.
Proof.
  intros Hr. funelim (prefixCollision j key); [congruence|reflexivity].
Qed.

(** *** The order of the keys *)

Lemma ascii_compare_lt_trans (a b c : Ascii.ascii) :
  Ascii.compare a b = Lt -> Ascii.compare b c = Lt -> Ascii.compare a c = Lt.
Proof.
  unfold Ascii.compare. rewrite !N.compare_lt_iff. lia.
Qed.

Lemma ascii_compare_refl (a : Ascii.ascii) : Ascii.compare a a = Eq.
Proof. unfold Ascii.compare. apply N.compare_refl. Qed.

Lemma string_compare_refl (s : string) : String.compare s s = Eq.
Proof. induction s as [|a s IH]; simpl; [done|]. by rewrite ascii_compare_refl. Qed.

Lemma string_compare_lt_trans (s1 : string) :
  forall s2 s3 : string,
    String.compare s1 s2 = Lt -> String.compare s2 s3 = Lt -> String.compare s1 s3 = Lt.
Proof.
  induction s1 as [|a s1 IH]; intros [|b s2] [|c s3]; simpl; try done.
  destruct (Ascii.compare a b) eqn:Hab; try done;
    destruct (Ascii.compare b c) eqn:Hbc; try done; intros H12 H23.
  - apply Ascii.compare_eq_iff in Hab, Hbc. subst.
    rewrite ascii_compare_refl. by eapply IH.
  - apply Ascii.compare_eq_iff in Hab. subst. by rewrite Hbc.
  - apply Ascii.compare_eq_iff in Hbc. subst. by rewrite Hab.
  - by rewrite (ascii_compare_lt_trans a b c).
Qed.

Lemma string_ltb_lt (s1 s2 : string) : String.ltb s1 s2 = true <-> String.compare s1 s2 = Lt.
Proof. unfold String.ltb. destruct (String.compare s1 s2); split; done. Qed.

(** [a.Key < b.Key] is a strict weak order, as [sort.Slice] asks. *)
Lemma key_less_swo : StrictWeakOrder key_less.
Proof.
  split; unfold key_less.
  - intros a. unfold String.ltb. by rewrite string_compare_refl.
  - intros a b c. rewrite !string_ltb_lt. apply string_compare_lt_trans.
  - intros a b c. rewrite !string_ltb_lt. intros Hab.
    destruct (String.compare (Key a) (Key c)) eqn:Hac.
    + apply String.compare_eq_iff in Hac. right. by rewrite <- Hac.
    + by left.
    + right. apply (string_compare_lt_trans _ (Key a)); [|done].
      rewrite String.compare_antisym, Hac. done.
Qed.

(** *** Slices in the store *)

Lemma elems_length (h : Arrays) (s : Slice) :
  valid_slice h s -> length (elems h s) = slen s.
Proof.
  unfold valid_slice, elems. destruct (base s) as [l|]; [|done].
  intros (arr & -> & Hfit). simpl. rewrite length_take, length_drop. lia.
Qed.

Lemma elems_frame (h h' : Arrays) (s : Slice) :
  valid_slice h s -> (forall l, l ∈ dom h -> h' !! l = h !! l) -> elems h' s = elems h s.
Proof.
  unfold valid_slice, elems. destruct (base s) as [l|]; [|done].
  intros (arr & Harr & _) Hfr. rewrite Hfr; [done|].
  apply elem_of_dom. by eexists.
Qed.

Lemma write_whole (l : positive) (n : nat) (xs arr : list Field) (h : Arrays) :
  h !! l = Some arr -> length xs = length arr ->
  write_window {| base := Some l; off := 0; slen := n |} xs h = <[l := xs]> h.
Proof.
  intros Hl Hlen. unfold write_window. simpl. apply map_eq. intros i.
  destruct (decide (l = i)) as [<-|Hne].
  - rewrite lookup_alter_eq, lookup_insert_eq, Hl. simpl.
    rewrite Hlen, drop_all, app_nil_r. done.
  - by rewrite lookup_alter_ne, lookup_insert_ne.
Qed.

Section SortingFacts.
Variable sort_elems : (Field -> Field -> bool) -> list Field -> list Field.
Hypothesis sort_elems_perm : forall less l, sort_elems less l ≡ₚ l.
Hypothesis sort_elems_sorted : forall less l,
  StrictWeakOrder less ->
  StronglySorted (fun a b => less b a = false) (sort_elems less l).

(** What the default sorter leaves: one new array, holding the sorted
    elements of the slice it was given. *)
Lemma defaultContextSorter_eq (fields : Slice) (h : Arrays) :
  valid_slice h fields ->
  defaultContextSorter sort_elems fields h =
    ({| base := Some (fresh (dom h)); off := 0; slen := slen fields |},
     <[fresh (dom h) := sort_elems key_less (elems h fields)]> h).
Proof.
  intros Hv. unfold defaultContextSorter, make_slice. cbv zeta.
  set (l := fresh (dom h)). set (n := slen fields).
  set (sorted := {| base := Some l; off := 0; slen := n |}).
  set (h1 := <[l := replicate n zeroField]> h : Arrays).
  assert (Hl : l ∉ dom h) by apply is_fresh.
  assert (Hfr : forall l', l' ∈ dom h -> h1 !! l' = h !! l').
  { intros l' Hl'. apply lookup_insert_ne. congruence. }
  assert (Hlen : length (elems h fields) = n) by (by apply elems_length).
  assert (Hcopy : copy sorted fields h1 = <[l := elems h fields]> h).
  { unfold copy. simpl. rewrite Nat.min_id, (elems_frame h h1 fields Hv Hfr).
    rewrite take_ge by (fold n; lia).
    rewrite (write_whole l n _ (replicate n zeroField)).
    - unfold h1. by rewrite insert_insert_eq.
    - apply lookup_insert_eq.
    - by rewrite length_replicate. }
  rewrite Hcopy. unfold sort_Slice.
  assert (Hsorted : elems (<[l := elems h fields]> h) sorted = elems h fields).
  { unfold elems at 1. simpl. rewrite lookup_insert_eq. simpl.
    rewrite drop_0, take_ge by lia. done. }
  rewrite Hsorted.
  rewrite (write_whole l n _ (elems h fields)).
  - by rewrite insert_insert_eq.
  - apply lookup_insert_eq.
  - by rewrite sort_elems_perm.
Qed.

End SortingFacts.

Lemma StronglySorted_weaken {A : Type} (R R' : A -> A -> Prop) (l : list A) :
  (forall a b, R a b -> R' a b) -> StronglySorted R l -> StronglySorted R' l.
Proof.
  intros HR. induction 1 as [|a l Hs IH Hall]; constructor; [done|].
  eapply Forall_impl; [exact Hall|]. intros b. apply HR.
Qed.

Lemma key_less_leb (a b : Field) :
  key_less b a = false -> String.leb (Key a) (Key b) = true.
Proof.
  unfold key_less, String.ltb, String.leb. rewrite (String.compare_antisym (Key a)).
  by destruct (String.compare (Key b) (Key a)).
Qed.

Lemma applyDefaultKeyNames_once_sorter (j : JSON) :
  ContextSorter (applyDefaultKeyNames_once j) = ContextSorter j.
Proof. unfold applyDefaultKeyNames_once. by destruct (once j). Qed.

Lemma applyDefaultKeyNames_once_context (j : JSON) :
  DisableContext (applyDefaultKeyNames_once j) = DisableContext j.
Proof. unfold applyDefaultKeyNames_once. by destruct (once j). Qed.

(** The store after [MarshalJSONObject]: the one the sorter returned, or
    the one it was given when the context is disabled. *)
Lemma MarshalJSONObject_store (DefTimestampFormat : string)
    (rec : JSONLogRec) (r : LogRec) (enc : list Member) (h : Arrays) :
  (MarshalJSONObject DefTimestampFormat rec r enc h).2 =
    if DisableContext (jl_JSON rec) then h else (sorter rec (Fields r) h).2.
Proof.
  unfold MarshalJSONObject. cbv zeta.
  destruct (DisableContext (jl_JSON rec)); simpl; [done|].
  destruct (sorter rec (Fields r) h) as [ctxFields h']; simpl.
  by destruct (String.eqb (KeyContextFields (jl_JSON rec)) "").
Qed.

(** ** The claim on the formatter's frame *)
Section FormatClaims.
Variable sort_elems : (Field -> Field -> bool) -> list Field -> list Field.
Hypothesis sort_elems_perm : forall less l, sort_elems less l ≡ₚ l.
Hypothesis sort_elems_sorted : forall less l,
  StrictWeakOrder less ->
  StronglySorted (fun a b => less b a = false) (sort_elems less l).
Variable DefTimestampFormat : string.

(** C8. The default context sorter returns a slice over an array that
    the call allocates, holding the elements of its argument sorted by key;
    every array that existed before, the argument's own among them, is as
    it was, so the argument still shows the same elements in the same
    order. [Format] changes no record and no array that existed before the
    call, with the default sorter and with any custom sorter that keeps to
    its contract of leaving the original unmodified. *)
Theorem Format_leaves_record_unmodified (j : JSON) (rec : positive) (r : LogRec)
    (stk : bool) (buf : option (list (list Member))) (w : World) (fields : Slice)
    (h : Arrays) :
  valid_slice h fields ->
  records w !! rec = Some r ->
  valid_slice (arrays w) (Fields r) ->
  (forall custom, ContextSorter j = Some custom ->
     forall l, l ∈ dom (arrays w) ->
       (custom (Fields r) (arrays w)).2 !! l = arrays w !! l) ->
  (base (defaultContextSorter sort_elems fields h).1 = Some (fresh (dom h)) /\
   (fresh (dom h) ∉ dom h) /\
   slen (defaultContextSorter sort_elems fields h).1 = slen fields /\
   (forall l, l ∈ dom h -> (defaultContextSorter sort_elems fields h).2 !! l = h !! l) /\
   elems (defaultContextSorter sort_elems fields h).2 fields = elems h fields /\
   elems (defaultContextSorter sort_elems fields h).2
         (defaultContextSorter sort_elems fields h).1 ≡ₚ elems h fields /\
   StronglySorted (fun a b => String.leb (Key a) (Key b) = true)
     (elems (defaultContextSorter sort_elems fields h).2
            (defaultContextSorter sort_elems fields h).1)) /\
  (records (Format sort_elems DefTimestampFormat j rec stk buf w).2 = records w /\
   (forall l, l ∈ dom (arrays w) ->
      arrays (Format sort_elems DefTimestampFormat j rec stk buf w).2 !! l = arrays w !! l) /\
   elems (arrays (Format sort_elems DefTimestampFormat j rec stk buf w).2) (Fields r)
     = elems (arrays w) (Fields r)).
Proof.
  intros Hv Hrec Hvr Hcustom.
  assert (Hfresh : forall h0 : Arrays, fresh (dom h0) ∉ dom h0) by (intros; apply is_fresh).
  split.
  - rewrite (defaultContextSorter_eq sort_elems sort_elems_perm fields h Hv). simpl.
    assert (Hfr : forall l, l ∈ dom h ->
              (<[fresh (dom h) := sort_elems key_less (elems h fields)]> h : Arrays) !! l
              = h !! l).
    { intros l Hl. apply lookup_insert_ne. intros <-. by apply (Hfresh h). }
    assert (Hnew : elems (<[fresh (dom h) := sort_elems key_less (elems h fields)]> h)
                     {| base := Some (fresh (dom h)); off := 0; slen := slen fields |}
                   = sort_elems key_less (elems h fields)).
    { unfold elems at 1. simpl. rewrite lookup_insert_eq. simpl. rewrite drop_0.
      apply take_ge. rewrite sort_elems_perm. by rewrite elems_length. }
    repeat split; try done.
    + by apply elems_frame.
    + by rewrite Hnew.
    + rewrite Hnew.
      eapply StronglySorted_weaken; [|apply sort_elems_sorted, key_less_swo].
      intros a b. apply key_less_leb.
  - assert (Hfr : forall l, l ∈ dom (arrays w) ->
       arrays (Format sort_elems DefTimestampFormat j rec stk buf w).2 !! l = arrays w !! l).
    { intros l Hl. unfold Format. cbv zeta. rewrite Hrec.
      match goal with
      | |- context [MarshalJSONObject ?d ?jlr ?r0 ?e ?h0] =>
          pose proof (MarshalJSONObject_store d jlr r0 e h0) as Hst;
          destruct (MarshalJSONObject d jlr r0 e h0) as [members h1]
      end.
      simpl in *. subst h1. rewrite applyDefaultKeyNames_once_context.
      destruct (DisableContext j); [done|].
      rewrite applyDefaultKeyNames_once_sorter.
      destruct (ContextSorter j) as [custom|] eqn:Hs.
      - by apply Hcustom.
      - rewrite (defaultContextSorter_eq sort_elems sort_elems_perm _ _ Hvr). simpl.
        apply lookup_insert_ne. intros <-. by apply (Hfresh (arrays w)). }
    split; [|split].
    + unfold Format. cbv zeta. rewrite Hrec.
      by destruct (MarshalJSONObject _ _ _ _ _).
    + exact Hfr.
    + by apply elems_frame.
Qed.

End FormatClaims.

Lemma go_sort_perm (less : Field -> Field -> bool) (l : list Field) : go_sort less l ≡ₚ l.
Proof. apply merge_sort_Permutation. Qed.

Lemma go_sort_sorted (less : Field -> Field -> bool) (l : list Field) :
  StrictWeakOrder less ->
  StronglySorted (fun a b => less b a = false) (go_sort less l).
Proof.
  intros [Hirr Htr Hco].
  assert (Htotal : Total (not_after less)).
  { intros a b. unfold not_after. destruct (less b a) eqn:Hba; [|by left]. right.
    destruct (less a b) eqn:Hab; [|done].
    pose proof (Htr a b a Hab Hba) as Haa. by rewrite Hirr in Haa. }
  assert (Htrans : Transitive (not_after less)).
  { intros a b c Hba Hcb. unfold not_after in *. destruct (less c a) eqn:Hca; [|done].
    destruct (Hco c a b Hca) as [H|H]; congruence. }
  by apply (StronglySorted_merge_sort (not_after less)).
Qed.

Lemma test_world_valid (fs : list Field) :
  valid_slice (arrays (test_world fs)) (test_fields fs).
Proof. exists fs. split; [reflexivity|simpl; lia]. Defined.

Example defaultContextSorter_sorts :
  elems (defaultContextSorter go_sort (test_fields [field_user; field_role])
           (arrays (test_world [field_user; field_role]))).2
        (defaultContextSorter go_sort (test_fields [field_user; field_role])
           (arrays (test_world [field_user; field_role]))).1
  = [field_role; field_user].
Proof. vm_compute. reflexivity. Qed.

Lemma test_no_custom_sorter (fs : list Field) :
  forall custom, ContextSorter defaultJSON = Some custom ->
    forall l, l ∈ dom (arrays (test_world fs)) ->
      (custom (test_fields fs) (arrays (test_world fs))).2 !! l
      = arrays (test_world fs) !! l.
Proof. intros custom Hc. discriminate Hc. Defined.

Lemma Format_leaves_record_unmodified_witness :
  elems (arrays (Format go_sort "" defaultJSON 1%positive false None
                   (test_world [field_user; field_role])).2)
        (test_fields [field_user; field_role])
  = elems (arrays (test_world [field_user; field_role]))
          (test_fields [field_user; field_role]).
Proof.
  exact (proj2 (proj2 (proj2
    (Format_leaves_record_unmodified go_sort go_sort_perm go_sort_sorted ""
       defaultJSON 1%positive _ false None (test_world [field_user; field_role])
       (test_fields [field_user; field_role])
       (arrays (test_world [field_user; field_role]))
       (test_world_valid _) eq_refl (test_world_valid _) (test_no_custom_sorter _))))).
Defined.

(** ** The claims on the keys of the context fields *)

Lemma reserved_false (j : JSON) (key : string) :
  reserved j key = false <->
  key <> KeyTimestamp j /\ key <> KeyLevel j /\ key <> KeyMsg j /\ key <> KeyStacktrace j.
Proof.
  unfold reserved. rewrite !orb_false_iff, !String.eqb_neq. tauto.
Qed.

(** [prefixCollision] returns on every key, and what it returns is the
    key behind underscores, different from each of the four reserved
    names; a key that collides with none is returned as it is. *)
Theorem prefixCollision_avoids_reserved (j : JSON) (key : string) :
  (prefixCollision j key <> KeyTimestamp j /\
   prefixCollision j key <> KeyLevel j /\
   prefixCollision j key <> KeyMsg j /\
   prefixCollision j key <> KeyStacktrace j) /\
  (exists n : nat,
     prefixCollision j key = underscores n key /\
     forall m : nat, (m < n)%nat -> reserved j (underscores m key) = true) /\
  (reserved j key = false -> prefixCollision j key = key).
Proof.
  split; [|split].
  - apply reserved_false, prefixCollision_not_reserved.
  - apply prefixCollision_underscores.
  - apply prefixCollision_fixed.
Qed.

Lemma encodeField_app (enc : list Member) (key : string) (field : Field) :
  encodeField enc key field = enc ++ encodeField [] key field.
Proof. unfold encodeField. destruct (FType field); simpl; by rewrite ?app_nil_r. Qed.

(** A field of a type other than [UnknownType] is written under the key
    handed to [encodeField], or not at all. *)
Lemma encodeField_key (key : string) (field : Field) :
  FType field <> UnknownType ->
  Forall (fun k => k = key) (encodeField [] key field).*1.
Proof.
  intros Hty. unfold encodeField.
  destruct (FType field); simpl; try done; repeat constructor.
Qed.

Lemma encode_fields_app (j : JSON) (fs : list Field) :
  forall enc : list Member,
    foldl (fun enc cf => encodeField enc (prefixCollision j (Key cf)) cf) enc fs
    = enc ++ flat_map (fun cf => encodeField [] (prefixCollision j (Key cf)) cf) fs.
Proof.
  induction fs as [|cf fs IH]; intros enc; simpl.
  - by rewrite app_nil_r.
  - by rewrite IH, encodeField_app, <- app_assoc.
Qed.

(** Top-level context fields of a type other than [UnknownType] are
    written under keys that collide with no reserved name. *)
Theorem typed_context_fields_avoid_reserved (j : JSON) (fs : list Field) (enc : list Member) :
  Forall (fun cf => FType cf <> UnknownType) fs ->
  Forall (fun k => reserved j k = false)
    (new_keys enc (foldl (fun enc cf => encodeField enc (prefixCollision j (Key cf)) cf) enc fs)).
Proof.
  intros Hall. unfold new_keys. rewrite encode_fields_app, drop_app_length.
  induction Hall as [|cf fs Hcf _ IH]; simpl; [constructor|].
  rewrite fmap_app. apply Forall_app. split; [|exact IH].
  eapply Forall_impl; [exact (encodeField_key _ cf Hcf)|].
  intros k ->. apply prefixCollision_not_reserved.
Qed.

Lemma typed_context_fields_avoid_reserved_witness :
  Forall (fun k => reserved defaultJSON k = false)
    (new_keys []
       (foldl (fun enc cf => encodeField enc (prefixCollision defaultJSON (Key cf)) cf)
              [] [field_flag; field_user])).
Proof.
  apply (typed_context_fields_avoid_reserved defaultJSON [field_flag; field_user] []).
  repeat constructor; discriminate.
Defined.

(** C10 at a field of type [UnknownType] with the key [msg]: the
    formatter hands [encodeField] the key [_msg], and the member is written
    under [msg] all the same, next to the message; a [BoolType] field with
    the same key is written under [_msg]. *)
Theorem unknown_type_field_keeps_reserved_key (layout : string) :
  prefixCollision defaultJSON (Key field_msg) = "_msg"%string /\
  reserved defaultJSON "msg" = true /\
  (Format go_sort layout defaultJSON 1%positive false None (test_world [field_msg])).1.1
    = [[ ("timestamp"%string, JTime 0 layout); ("level"%string, JString "info");
         ("msg"%string, JString "hello"); ("msg"%string, JString "UnknownType") ]] /\
  (Format go_sort layout defaultJSON 1%positive false None (test_world [field_flag])).1.1
    = [[ ("timestamp"%string, JTime 0 layout); ("level"%string, JString "info");
         ("msg"%string, JString "hello"); ("_msg"%string, JBool 1) ]].
Proof. repeat split; vm_compute; reflexivity. Qed.

(** ** The key names *)

(** X8. A formatter that has not formatted yet gets, on its first [Format],
    a default for each of the four key names left empty and keeps the names
    that were set; every other setting is as it was. From then on the names
    are fixed: formatting again changes nothing, a name emptied afterwards
    stays empty. [Format] returns the formatter so configured. *)
Theorem default_key_names_applied_once sort_elems (layout : string) (j : JSON)
    (rec : positive) (stk : bool) (buf : option (list (list Member))) (w : World) :
  (Format sort_elems layout j rec stk buf w).1.2 = applyDefaultKeyNames_once j /\
  applyDefaultKeyNames_once (applyDefaultKeyNames_once j) = applyDefaultKeyNames_once j /\
  (once j = true -> applyDefaultKeyNames_once j = j) /\
  (once j = false ->
   once (applyDefaultKeyNames_once j) = true /\
   KeyTimestamp (applyDefaultKeyNames_once j) <> ""%string /\
   KeyLevel (applyDefaultKeyNames_once j) <> ""%string /\
   KeyMsg (applyDefaultKeyNames_once j) <> ""%string /\
   KeyStacktrace (applyDefaultKeyNames_once j) <> ""%string /\
   (KeyTimestamp j <> ""%string -> KeyTimestamp (applyDefaultKeyNames_once j) = KeyTimestamp j) /\
   (KeyLevel j <> ""%string -> KeyLevel (applyDefaultKeyNames_once j) = KeyLevel j) /\
   (KeyMsg j <> ""%string -> KeyMsg (applyDefaultKeyNames_once j) = KeyMsg j) /\
   (KeyStacktrace j <> ""%string ->
    KeyStacktrace (applyDefaultKeyNames_once j) = KeyStacktrace j) /\
   (KeyTimestamp j = ""%string ->
    KeyTimestamp (applyDefaultKeyNames_once j) = "timestamp"%string) /\
   (KeyLevel j = ""%string -> KeyLevel (applyDefaultKeyNames_once j) = "level"%string) /\
   (KeyMsg j = ""%string -> KeyMsg (applyDefaultKeyNames_once j) = "msg"%string) /\
   (KeyStacktrace j = ""%string ->
    KeyStacktrace (applyDefaultKeyNames_once j) = "stacktrace"%string) /\
   KeyContextFields (applyDefaultKeyNames_once j) = KeyContextFields j /\
   TimestampFormat (applyDefaultKeyNames_once j) = TimestampFormat j /\
   ContextSorter (applyDefaultKeyNames_once j) = ContextSorter j /\
   DisableTimestamp (applyDefaultKeyNames_once j) = DisableTimestamp j /\
   DisableLevel (applyDefaultKeyNames_once j) = DisableLevel j /\
   DisableMsg (applyDefaultKeyNames_once j) = DisableMsg j /\
   DisableContext (applyDefaultKeyNames_once j) = DisableContext j /\
   DisableStacktrace (applyDefaultKeyNames_once j) = DisableStacktrace j).
Proof.
  assert (Hdef : forall s d : string, d <> ""%string ->
            or_default s d <> ""%string /\
            (s <> ""%string -> or_default s d = s) /\ (s = ""%string -> or_default s d = d)).
  { intros s0 d Hd. unfold or_default. destruct (String.eqb s0 "") eqn:E.
    - apply String.eqb_eq in E. done.
    - apply String.eqb_neq in E. done. }
  split; [|split; [|split]].
  - unfold Format. cbv zeta. destruct (records w !! rec); [|done].
    by destruct (MarshalJSONObject _ _ _ _ _).
  - unfold applyDefaultKeyNames_once. destruct (once j) eqn:E; [by rewrite E|done].
  - intros E. unfold applyDefaultKeyNames_once. by rewrite E.
  - intros E. unfold applyDefaultKeyNames_once. rewrite E. simpl.
    destruct (Hdef (KeyTimestamp j) "timestamp"%string) as (? & ? & ?); [done|].
    destruct (Hdef (KeyLevel j) "level"%string) as (? & ? & ?); [done|].
    destruct (Hdef (KeyMsg j) "msg"%string) as (? & ? & ?); [done|].
    destruct (Hdef (KeyStacktrace j) "stacktrace"%string) as (? & ? & ?); [done|].
    repeat split; done.
Qed.

(** *** The length of the prefix *)

Lemma underscores_length (n : nat) :
  forall key : string, String.length (underscores n key) = (n + String.length key)%nat.
Proof.
  induction n as [|n IH]; intros key; simpl; [done|].
  rewrite IH. change (String.length ("_" +:+ key)) with (S (String.length key)). lia.
Qed.

Lemma reserved_elem_of (j : JSON) (key : string) :
  reserved j key = true -> key ∈ reserved_keys j.
Proof.
  unfold reserved, reserved_keys. rewrite !orb_true_iff, !String.eqb_eq.
  intros [[[-> | ->] | ->] | ->]; set_solver.
Qed.

(** X9. [prefixCollision] puts at most four underscores in front of a key,
    one for each reserved name the key runs into on the way, and applying
    it to its own result changes nothing. *)
Theorem prefixCollision_at_most_four (j : JSON) (key : string) :
  (exists n : nat, (n <= 4)%nat /\ prefixCollision j key = underscores n key) /\
  (String.length key <= String.length (prefixCollision j key) <= String.length key + 4)%nat /\
  prefixCollision j (prefixCollision j key) = prefixCollision j key.
Proof.
  destruct (prefixCollision_underscores j key) as (n & Hn & Hres).
  assert (Hle : (n <= 4)%nat).
  { set (us := (fun m => underscores m key) <$> seq 0 n).
    assert (Hnd : NoDup us).
    { apply NoDup_fmap_2_strong; [|apply NoDup_seq].
      intros a b _ _ Hab. apply (f_equal String.length) in Hab.
      rewrite !underscores_length in Hab. lia. }
    assert (Hsub : us ⊆+ reserved_keys j).
    { apply NoDup_submseteq; [done|]. intros k Hk.
      apply list_elem_of_fmap in Hk as (m & -> & Hm).
      apply elem_of_seq in Hm. apply reserved_elem_of, Hres. lia. }
    apply submseteq_length in Hsub. unfold us in Hsub.
    rewrite length_fmap, length_seq in Hsub. simpl in Hsub. lia. }
  split; [by exists n|]. split.
  - rewrite Hn, underscores_length. lia.
  - apply prefixCollision_fixed, prefixCollision_not_reserved.
Qed.

(** ** The line that [Format] writes *)

(** The members of the object, part by part: the timestamp, the level
    and the message, each unless disabled; then the context; then the stack
    trace. *)
Lemma MarshalJSONObject_members (layout : string) (rec : JSONLogRec) (r : LogRec)
    (enc : list Member) (h : Arrays) :
  (MarshalJSONObject layout rec r enc h).1 =
    enc
    ++ (if DisableTimestamp (jl_JSON rec) then []
        else [(KeyTimestamp (jl_JSON rec),
               JTime (Time r) (if String.eqb (TimestampFormat (jl_JSON rec)) ""
                               then layout else TimestampFormat (jl_JSON rec)))])
    ++ (if DisableLevel (jl_JSON rec) then []
        else [(KeyLevel (jl_JSON rec), JString (Logr.Name (Level r)))])
    ++ (if DisableMsg (jl_JSON rec) then [] else [(KeyMsg (jl_JSON rec), JString (Msg r))])
    ++ (if DisableContext (jl_JSON rec) then []
        else if String.eqb (KeyContextFields (jl_JSON rec)) "" then
          flat_map (fun cf => encodeField [] (prefixCollision (jl_JSON rec) (Key cf)) cf)
                   (elems (sorter rec (Fields r) h).2 (sorter rec (Fields r) h).1)
        else
          [(KeyContextFields (jl_JSON rec),
            JObject (jsonFields_MarshalJSONObject
                       (elems (sorter rec (Fields r) h).2 (sorter rec (Fields r) h).1) []))])
    ++ (if stacktrace rec && negb (DisableStacktrace (jl_JSON rec))
           && (0 <? length (StackFrames r))%nat
        then [(KeyStacktrace (jl_JSON rec),
               JArray (map stackFrame_MarshalJSONObject (StackFrames r)))]
        else []).
Proof.
  unfold MarshalJSONObject. cbv zeta.
  destruct (DisableTimestamp (jl_JSON rec)), (DisableLevel (jl_JSON rec)),
    (DisableMsg (jl_JSON rec)), (DisableContext (jl_JSON rec));
    cbn [negb];
    try (destruct (sorter rec (Fields r) h) as [ctx h']; cbn [fst snd];
         destruct (String.eqb (KeyContextFields (jl_JSON rec)) ""); cbn [negb fst snd];
         rewrite ?encode_fields_app);
    destruct (stacktrace rec), (DisableStacktrace (jl_JSON rec)); cbn [negb andb fst];
    try destruct (0 <? length (StackFrames r))%nat;
    cbn [fst]; rewrite ?app_nil_r, <- ?app_assoc; reflexivity.
Qed.

Lemma Format_line sort_elems (layout : string) (j : JSON) (rec : positive) (r : LogRec)
    (stk : bool) (buf : option (list (list Member))) (w : World) :
  records w !! rec = Some r ->
  (Format sort_elems layout j rec stk buf w).1.1 =
    default [] buf ++
    [ (MarshalJSONObject layout
         {| jl_LogRec := rec; jl_JSON := applyDefaultKeyNames_once j; stacktrace := stk;
            sorter := match ContextSorter (applyDefaultKeyNames_once j) with
                      | Some custom => custom
                      | None => defaultContextSorter sort_elems
                      end |} r [] (arrays w)).1 ].
Proof.
  intros Hr. unfold Format. cbv zeta. rewrite Hr.
  by destruct (MarshalJSONObject _ _ _ _ _).
Qed.

(** X10. [Format] keeps what the buffer held and adds exactly one line; a nil
    buffer counts as an empty one. For a nil record the line has no member
    and the store is left as it is. *)
Theorem Format_appends_one_line sort_elems (layout : string) (j : JSON) (rec : positive)
    (stk : bool) (buf : option (list (list Member))) (w : World) :
  (exists line : list Member,
     (Format sort_elems layout j rec stk buf w).1.1 = default [] buf ++ [line]) /\
  length (Format sort_elems layout j rec stk buf w).1.1 = S (length (default [] buf)) /\
  take (length (default [] buf)) (Format sort_elems layout j rec stk buf w).1.1
    = default [] buf /\
  Format sort_elems layout j rec stk None w = Format sort_elems layout j rec stk (Some []) w /\
  (records w !! rec = None ->
   (Format sort_elems layout j rec stk buf w).1.1 = default [] buf ++ [[]] /\
   (Format sort_elems layout j rec stk buf w).2 = w).
Proof.
  assert (Hex : exists line : list Member,
     (Format sort_elems layout j rec stk buf w).1.1 = default [] buf ++ [line]).
  { destruct (records w !! rec) as [r|] eqn:Hr.
    - eexists. by apply Format_line.
    - exists []. unfold Format. cbv zeta. by rewrite Hr. }
  split; [exact Hex|]. split; [|split; [|split]].
  - destruct Hex as [line ->]. rewrite length_app. simpl. lia.
  - destruct Hex as [line ->]. by rewrite take_app_length.
  - reflexivity.
  - intros Hr. unfold Format. cbv zeta. by rewrite Hr.
Qed.


Section StoreGrowth.
Variable sort_elems : (Field -> Field -> bool) -> list Field -> list Field.
Hypothesis sort_elems_perm : forall less l, sort_elems less l ≡ₚ l.

(** X12. With [DisableContext] set, [Format] never calls the context sorter:
    the store of arrays is exactly as before, whatever sorter is
    configured, and the keys of the line are among the four reserved names,
    in their order. With the context enabled and the default sorter, each
    call allocates exactly one array, holding the sorted copy of the
    record's fields. *)
Theorem Format_allocates_for_context_only (layout : string) (j : JSON) (rec : positive)
    (r : LogRec) (stk : bool) (buf : option (list (list Member))) (w : World)
    (line : list Member) :
  records w !! rec = Some r ->
  last (Format sort_elems layout j rec stk buf w).1.1 = Some line ->
  (DisableContext j = true ->
   arrays (Format sort_elems layout j rec stk buf w).2 = arrays w /\
   line.*1 `sublist_of` reserved_keys (applyDefaultKeyNames_once j)) /\
  (DisableContext j = false -> ContextSorter j = None ->
   valid_slice (arrays w) (Fields r) ->
   arrays (Format sort_elems layout j rec stk buf w).2
     = <[fresh (dom (arrays w)) := sort_elems key_less (elems (arrays w) (Fields r))]>
         (arrays w) /\
   dom (arrays (Format sort_elems layout j rec stk buf w).2)
     = {[fresh (dom (arrays w))]} ∪ dom (arrays w) /\
   (fresh (dom (arrays w)) ∉ dom (arrays w))).
Proof.
  intros Hr Hlast.
  assert (Hst : arrays (Format sort_elems layout j rec stk buf w).2 =
            if DisableContext j then arrays w
            else (match ContextSorter j with
                  | Some custom => custom
                  | None => defaultContextSorter sort_elems
                  end (Fields r) (arrays w)).2).
  { unfold Format. cbv zeta. rewrite Hr.
    match goal with
    | |- context [MarshalJSONObject ?d ?jlr ?r0 ?e ?h0] =>
        pose proof (MarshalJSONObject_store d jlr r0 e h0) as Hs;
        destruct (MarshalJSONObject d jlr r0 e h0) as [members h1]
    end.
    simpl in *. subst h1.
    by rewrite applyDefaultKeyNames_once_context, applyDefaultKeyNames_once_sorter. }
  split.
  - intros Hd. rewrite Hst, Hd. split; [done|].
    rewrite (Format_line _ _ _ _ r) in Hlast by done.
    rewrite last_snoc in Hlast. injection Hlast as <-.
    rewrite MarshalJSONObject_members. cbn [jl_JSON stacktrace sorter jl_LogRec].
    rewrite applyDefaultKeyNames_once_context, Hd. unfold reserved_keys.
    destruct (DisableTimestamp _), (DisableLevel _), (DisableMsg _);
      destruct (stk && negb (DisableStacktrace _) && (0 <? length (StackFrames r))%nat);
      simpl; repeat constructor.
  - intros Hd Hs Hv. rewrite Hst, Hd, Hs.
    rewrite (defaultContextSorter_eq sort_elems sort_elems_perm _ _ Hv). simpl.
    repeat split; [apply dom_insert_L|apply is_fresh].
Qed.

End StoreGrowth.

(** ** The keys the context fields are written under *)



Lemma Format_allocates_for_context_only_witness :
  dom (arrays (Format go_sort "L" defaultJSON 1%positive false None
                 (test_world [field_user; field_role])).2)
  = {[fresh (dom (arrays (test_world [field_user; field_role])))]}
    ∪ dom (arrays (test_world [field_user; field_role])).
Proof.
  refine (proj1 (proj2 (proj2
    (Format_allocates_for_context_only go_sort go_sort_perm "L" defaultJSON 1%positive
       _ false None (test_world [field_user; field_role])
       [ ("timestamp"%string, JTime 0 "L"); ("level"%string, JString "info");
         ("msg"%string, JString "hello") ]
       eq_refl _) eq_refl eq_refl (test_world_valid _)))).
  vm_compute. reflexivity.
Defined.


(** ** Formatting again, and fields in another order *)
Section Repeatable.
Variable sort_elems : (Field -> Field -> bool) -> list Field -> list Field.
Hypothesis sort_elems_perm : forall less l, sort_elems less l ≡ₚ l.
Hypothesis sort_elems_sorted : forall less l,
  StrictWeakOrder less ->
  StronglySorted (fun a b => less b a = false) (sort_elems less l).

Lemma defaultContextSorter_elems (fields : Slice) (h : Arrays) :
  valid_slice h fields ->
  elems (defaultContextSorter sort_elems fields h).2 (defaultContextSorter sort_elems fields h).1
  = sort_elems key_less (elems h fields).
Proof.
  intros Hv. rewrite (defaultContextSorter_eq sort_elems sort_elems_perm fields h Hv).
  unfold elems at 1. simpl. rewrite lookup_insert_eq. simpl. rewrite drop_0.
  apply take_ge. rewrite sort_elems_perm. by rewrite elems_length.
Qed.

(** X14. Formatting a record a second time, with the formatter and the store
    the first call left, writes the same line again. *)
Theorem Format_twice_same_line (layout : string) (j : JSON) (rec : positive) (r : LogRec)
    (stk : bool) (buf : option (list (list Member))) (w : World) :
  records w !! rec = Some r ->
  valid_slice (arrays w) (Fields r) ->
  ContextSorter j = None ->
  let f1 := Format sort_elems layout j rec stk buf w in
  let f2 := Format sort_elems layout f1.1.2 rec stk (Some f1.1.1) f1.2 in
  last f2.1.1 = last f1.1.1 /\
  length f2.1.1 = S (length f1.1.1) /\
  f2.1.2 = f1.1.2.
Proof.
  intros Hr Hv Hs f1 f2.
  destruct (default_key_names_applied_once sort_elems layout j rec stk buf w)
    as (Hj1 & Hidem & _).
  fold f1 in Hj1.
  assert (Hw1 : records f1.2 = records w /\
                forall l, l ∈ dom (arrays w) -> arrays f1.2 !! l = arrays w !! l).
  { destruct (Format_leaves_record_unmodified sort_elems sort_elems_perm sort_elems_sorted
                layout j rec r stk buf w (Fields r) (arrays w) Hv Hr Hv) as (_ & H1 & H2 & _).
    - intros custom Hc. congruence.
    - done. }
  destruct Hw1 as [Hrec1 Hfr1].
  assert (Hr1 : records f1.2 !! rec = Some r) by (by rewrite Hrec1).
  assert (Hv1 : valid_slice (arrays f1.2) (Fields r)).
  { unfold valid_slice in *. destruct (base (Fields r)) as [l|]; [|done].
    destruct Hv as (arr & Harr & Hfit). exists arr. split; [|done].
    rewrite Hfr1; [done|]. apply elem_of_dom. by eexists. }
  assert (Hj2 : f2.1.2 = f1.1.2).
  { unfold f2.
    destruct (default_key_names_applied_once sort_elems layout f1.1.2 rec stk
                (Some f1.1.1) f1.2) as (-> & _).
    by rewrite Hj1. }
  split; [|split; [|exact Hj2]].
  - pose proof (Format_line sort_elems layout j rec r stk buf w Hr) as L1.
    pose proof (Format_line sort_elems layout f1.1.2 rec r stk (Some f1.1.1) f1.2 Hr1) as L2.
    fold f1 in L1. fold f2 in L2.
    rewrite L2, last_snoc, L1, last_snoc. f_equal.
    rewrite Hj1, Hidem, !MarshalJSONObject_members.
    cbn [jl_JSON stacktrace sorter jl_LogRec].
    rewrite applyDefaultKeyNames_once_sorter, Hs.
    rewrite !defaultContextSorter_elems by done.
    by rewrite (elems_frame (arrays w) (arrays f1.2) (Fields r) Hv Hfr1).
  - unfold f2.
    destruct (Format_appends_one_line sort_elems layout f1.1.2 rec stk (Some f1.1.1) f1.2)
      as (_ & -> & _). done.
Qed.

(** X15. With pairwise different keys, what the default sorter returns depends
    on the fields only, not on their order in the slice, and not on how
    [sort.Slice] orders equal elements. *)
Theorem defaultContextSorter_canonical (fields1 fields2 : Slice) (h1 h2 : Arrays) :
  valid_slice h1 fields1 -> valid_slice h2 fields2 ->
  elems h1 fields1 ≡ₚ elems h2 fields2 ->
  NoDup (Key <$> elems h1 fields1) ->
  elems (defaultContextSorter sort_elems fields1 h1).2
        (defaultContextSorter sort_elems fields1 h1).1
  = elems (defaultContextSorter sort_elems fields2 h2).2
          (defaultContextSorter sort_elems fields2 h2).1.
Proof.
  intros Hv1 Hv2 Hp Hnd. rewrite !defaultContextSorter_elems by done.
  apply (StronglySorted_unique_strong (fun a b => key_less b a = false)).
  - intros a b Ha Hb Hab Hba.
    assert (Hk : Key a = Key b).
    { unfold key_less, String.ltb in *.
      destruct (String.compare (Key b) (Key a)) eqn:E1; try done.
      - symmetry. by apply String.compare_eq_iff.
      - rewrite String.compare_antisym, E1 in Hba. done. }
    rewrite sort_elems_perm in Ha, Hb. rewrite <- Hp in Hb.
    apply list_elem_of_lookup in Ha as [ia Hia]. apply list_elem_of_lookup in Hb as [ib Hib].
    assert (ia = ib).
    { eapply NoDup_lookup; [exact Hnd| |]; rewrite list_lookup_fmap.
      - rewrite Hia. reflexivity.
      - rewrite Hib. simpl. by rewrite Hk. }
    subst. congruence.
  - apply sort_elems_sorted, key_less_swo.
  - apply sort_elems_sorted, key_less_swo.
  - by rewrite !sort_elems_perm.
Qed.

End Repeatable.

Lemma Format_twice_same_line_witness :
  last (Format go_sort "L"
          (Format go_sort "L" defaultJSON 1%positive false None
             (test_world [field_user; field_flag])).1.2
          1%positive false
          (Some (Format go_sort "L" defaultJSON 1%positive false None
                   (test_world [field_user; field_flag])).1.1)
          (Format go_sort "L" defaultJSON 1%positive false None
             (test_world [field_user; field_flag])).2).1.1
  = last (Format go_sort "L" defaultJSON 1%positive false None
            (test_world [field_user; field_flag])).1.1.
Proof.
  exact (proj1
    (Format_twice_same_line go_sort go_sort_perm go_sort_sorted "L" defaultJSON 1%positive
       _ false None (test_world [field_user; field_flag])
       eq_refl (test_world_valid _) eq_refl)).
Defined.

Lemma test_keys_distinct :
  NoDup (Key <$> elems (arrays (test_world [field_user; field_role]))
                       (test_fields [field_user; field_role])).
Proof.
  vm_compute. apply NoDup_cons. split; [|apply NoDup_singleton].
  intros Hin. apply list_elem_of_singleton in Hin. discriminate Hin.
Qed.

Lemma defaultContextSorter_canonical_witness :
  elems (defaultContextSorter go_sort (test_fields [field_user; field_role])
           (arrays (test_world [field_user; field_role]))).2
        (defaultContextSorter go_sort (test_fields [field_user; field_role])
           (arrays (test_world [field_user; field_role]))).1
  = elems (defaultContextSorter go_sort (test_fields [field_role; field_user])
             (arrays (test_world [field_role; field_user]))).2
          (defaultContextSorter go_sort (test_fields [field_role; field_user])
             (arrays (test_world [field_role; field_user]))).1.
Proof.
  apply (defaultContextSorter_canonical go_sort go_sort_perm go_sort_sorted
           (test_fields [field_user; field_role]) (test_fields [field_role; field_user])
           (arrays (test_world [field_user; field_role]))
           (arrays (test_world [field_role; field_user]))
           (test_world_valid _) (test_world_valid _)).
  - vm_compute. apply perm_swap.
  - exact test_keys_distinct.
Defined.

End FormatFacts.
